(** * Hysteresis oscillatory network (pyclustering.nnet.hysteresis)

    A shallow embedding of [hysteresis_network] and the properties of its
    dynamics engine, simulation driver and ensemble allocator.

    Numbers.  The dynamics are modelled over exact rationals ([Q]); the
    comparisons [<] and [>] of the source are the boolean test [Qltb] of
    [Qlt].  Where a property turns on how floats round (the test of the
    allocator, the number of points of [numpy.arange]) the code is also
    given over any arithmetic and over binary64, the primitive floats.
    Python lists are
    [list]s, read with stdpp's lookup and written with stdpp's insert, with
    the [IndexError] Python raises out of range written out.

    Effects.  The methods mutate the fields of [self] and may raise; they
    are modelled in a state-and-exception monad [M] over the record of the
    instance fields: an exception leaves the fields as they were when it was
    raised. *)

From Stdlib Require Import String.
From Stdlib Require Import QArith Qround Qabs Lqa Permutation.
From Stdlib Require PrimFloat FloatOps SpecFloat Uint63.
From stdpp Require Import base list sorting.

Local Open Scope Q_scope.

(** ** Exceptions and the state monad *)

Inductive exn : Type :=
  | IndexError
  | ZeroDivisionError
  | ValueError
  | AttributeError
  | NameError (msg : string).

(** Modelled from the spec: the enumeration [solve_type] of
    [pyclustering.nnet] (imported, not defined in this module): the
    supported standard method and the two rejected ones. *)
Inductive solve_type : Type := FAST | RK4 | RKF45.

Definition solve_type_eqb (a b : solve_type) : bool :=
  match a, b with
  | FAST, FAST | RK4, RK4 | RKF45, RKF45 => true
  | _, _ => false
  end.

(** The instance fields of [hysteresis_network]; [_num_osc] is the field
    the base class [network] sets from its first constructor argument. *)
Record hysteresis_network : Type := mk_network {
  _num_osc : nat;
  _states : list Q;
  _outputs_buffer : list Q;
  _outputs : list Q;
  _weight : list (list Q)
}.

Definition result (A : Type) : Type := (exn + A)%type.

Definition M (A : Type) : Type :=
  hysteresis_network -> result A * hysteresis_network.

Definition ret {A} (a : A) : M A := fun self => (inr a, self).

Definition raise {A} (e : exn) : M A := fun self => (inl e, self).

Definition bind {A B} (m : M A) (f : A -> M B) : M B :=
  fun self =>
    match m self with
    | (inr a, self') => f a self'
    | (inl e, self') => (inl e, self')
    end.

Definition get : M hysteresis_network := fun self => (inr self, self).

Definition put (self' : hysteresis_network) : M unit :=
  fun _ => (inr tt, self').

Definition lift {A} (r : result A) : M A := fun self => (r, self).

Declare Scope py_scope.
Delimit Scope py_scope with py.
Notation "x <- m ;; k" := (bind m (fun x => k))
  (at level 100, m at next level, right associativity) : py_scope.
Notation "m ;;; k" := (bind m (fun _ => k))
  (at level 100, right associativity) : py_scope.
Local Open Scope py_scope.

(** Pure computations that may raise. *)
Definition rbind {A B} (r : result A) (f : A -> result B) : result B :=
  match r with
  | inr a => f a
  | inl e => inl e
  end.

(** [l[i]] for a non-negative index. *)
Definition getitem {A} (l : list A) (i : nat) : result A :=
  match l !! i with
  | Some v => inr v
  | None => inl IndexError
  end.

(** [l[i] = v] for a non-negative index. *)
Definition setitem {A} (l : list A) (i : nat) (v : A) : result (list A) :=
  if decide (i < length l)%nat then inr (<[i := v]> l) else inl IndexError.

Definition Qltb (x y : Q) : bool := negb (Qle_bool y x).

(** ** Field accessors *)

Definition set_states (v : list Q) (self : hysteresis_network) :=
  mk_network (_num_osc self) v (_outputs_buffer self) (_outputs self)
             (_weight self).

Definition set_outputs_buffer (v : list Q) (self : hysteresis_network) :=
  mk_network (_num_osc self) (_states self) v (_outputs self) (_weight self).

Definition set_outputs (v : list Q) (self : hysteresis_network) :=
  mk_network (_num_osc self) (_states self) (_outputs_buffer self) v
             (_weight self).

Definition set_weight (v : list (list Q)) (self : hysteresis_network) :=
  mk_network (_num_osc self) (_states self) (_outputs_buffer self)
             (_outputs self) v.

(** The property setters: [outputs] copies the values into both the
    outputs and the buffer, [states] into the states. *)
Definition outputs_setter (values : list Q) : M unit :=
  self <- get ;;
  put (set_outputs_buffer values (set_outputs values self)).

Definition states_setter (values : list Q) : M unit :=
  self <- get ;;
  put (set_states values self).

(** ** Constructor *)

(** The loop of [__init__]: append a row of [neigh_weight], then overwrite
    its diagonal entry. *)
Definition init_weight_step (n : nat) (own_weight neigh_weight : Q)
    (acc : result (list (list Q))) (index : nat) : result (list (list Q)) :=
  rbind acc (fun w =>
    let w1 := w ++ [replicate n neigh_weight] in
    rbind (getitem w1 index) (fun row =>
      rbind (setitem row index own_weight) (fun row' =>
        setitem w1 index row'))).

Definition init_weight (n : nat) (own_weight neigh_weight : Q)
    : result (list (list Q)) :=
  fold_left (init_weight_step n own_weight neigh_weight) (seq 0 n) (inr []).

Definition init (num_osc : nat) (own_weight neigh_weight : Q)
    : result hysteresis_network :=
  rbind (init_weight num_osc own_weight neigh_weight) (fun w =>
    inr (mk_network num_osc (replicate num_osc 0) (replicate num_osc (-1))
                    (replicate num_osc (-1)) w)).

(** ** Loops and numpy.arange *)

(** [for x in xs: acc = body acc x], stopping at the first exception. *)
Fixpoint for_loop {I A} (body : A -> I -> M A) (xs : list I) (acc : A) : M A :=
  match xs with
  | [] => ret acc
  | x :: xs' => acc' <- body acc x ;; for_loop body xs' acc'
  end.

(** [numpy.arange(start, stop, step)] in exact arithmetic:
    [ceil((stop - start) / step)] points [start + i * step]; none when that
    count is not positive; a zero step is an error.  [arange_binary64] below
    is the array as numpy computes it on floats, where the count can be one
    more. *)
Definition arange (start stop step : Q) : result (list Q) :=
  if Qeq_bool step 0 then inl ValueError
  else
    let n := Z.to_nat (Qceiling ((stop - start) / step)) in
    inr (map (fun i : nat => start + inject_Z (Z.of_nat i) * step) (seq 0 n)).

(** [time / steps] for an integer [steps]. *)
Definition truediv (time : Q) (steps : Z) : result Q :=
  if Z.eqb steps 0 then inl ZeroDivisionError
  else inr (time / inject_Z steps).

(** ** The scalar integrator

    [scipy.integrate.odeint] is an external capability.  It is a
    deterministic procedure that evaluates the derivative function at
    finitely many points of its own choice, each choice depending on the
    derivative values seen so far, and then returns a trajectory: a finite
    strategy tree. *)
Inductive integrator : Type :=
  | Trajectory (result_values : list Q)
  | Evaluate (y t : Q) (k : Q -> integrator).

Section Network.

(** The topology provider of the base class: [has_connection i j]. *)
Variable has_connection : nat -> nat -> bool.

(** [odeint func y0 t args], as the strategy it follows for the initial
    value [y0] and the time points [t]. *)
Variable odeint : Q -> list Q -> integrator.

(** *** neuron_states *)

(** The coupling loop [for i in range(0, num_osc)]. *)
Definition impact_step (self : hysteresis_network) (index : nat)
    (acc : result Q) (i : nat) : result Q :=
  rbind acc (fun impact =>
    if has_connection i index then
      rbind (getitem (_weight self) index) (fun row =>
        rbind (getitem row i) (fun w =>
          rbind (getitem (_outputs self) i) (fun o =>
            inr (impact + w * o))))
    else inr impact).

Definition own_impact (self : hysteresis_network) (index : nat) : result Q :=
  rbind (getitem (_weight self) index) (fun row =>
    rbind (getitem row index) (fun w =>
      rbind (getitem (_outputs self) index) (fun o =>
        inr (w * o)))).

Definition impact_of (self : hysteresis_network) (index : nat) : result Q :=
  fold_left (impact_step self index) (seq 0 (_num_osc self))
            (own_impact self index).

(** [if cond: self._outputs_buffer[index] = v] *)
Definition latch_if (cond : bool) (index : nat) (v : Q) : M unit :=
  if cond then
    self <- get ;;
    buf <- lift (setitem (_outputs_buffer self) index v) ;;
    put (set_outputs_buffer buf self)
  else ret tt.

Definition neuron_states (xi t : Q) (index : nat) : M Q :=
  self <- get ;;
  impact <- lift (impact_of self index) ;;
  let x := - xi + impact in
  latch_if (Qltb 1 xi) index 1 ;;;
  latch_if (Qltb xi (-1)) index (-1) ;;;
  ret x.

(** *** The integrator run against the derivative function *)

Fixpoint integrate (p : integrator) (index : nat) : M (list Q) :=
  match p with
  | Trajectory values => ret values
  | Evaluate y t k => dx <- neuron_states y t index ;; integrate (k dx) index
  end.

(** [result[len(result) - 1][0]] *)
Definition last_value (values : list Q) : result Q :=
  match length values with
  | O => inl IndexError
  | S n => getitem values n
  end.

(** *** _calculate_states *)

(** The body of the loop over oscillators. *)
Definition integrate_oscillator (t step int_step : Q)
    (next_states : list Q) (index : nat) : M (list Q) :=
  self <- get ;;
  y0 <- lift (getitem (_states self) index) ;;
  ts <- lift (arange (t - step) t int_step) ;;
  values <- integrate (odeint y0 ts) index ;;
  v <- lift (last_value values) ;;
  lift (setitem next_states index v).

(** One macro step with the oscillators integrated in the given order;
    the source integrates them in the order [range(0, num_osc)]. *)
Definition calculate_states_in (order : list nat) (solution : solve_type)
    (t step int_step : Q) : M (list Q) :=
  self <- get ;;
  next_states <- for_loop (integrate_oscillator t step int_step) order
                   (replicate (_num_osc self) 0) ;;
  self' <- get ;;
  put (set_outputs (_outputs_buffer self') self') ;;;
  ret next_states.

Definition _calculate_states (solution : solve_type) (t step int_step : Q)
    : M (list Q) :=
  self <- get ;;
  calculate_states_in (seq 0 (_num_osc self)) solution t step int_step.

(** *** simulate_static, simulate, simulate_dynamic *)

(** The values the variables [dyn_time] and [dyn_state] hold. *)
Inductive dyn_time_value : Type :=
  | TimeNone
  | TimeLast (t : Q)
  | TimeList (ts : list Q).

Inductive dyn_state_value : Type :=
  | StateNone
  | StateLast (s : list Q)
  | StateList (ss : list (list Q)).

Definition time_append (d : dyn_time_value) (t : Q) : result dyn_time_value :=
  match d with
  | TimeList ts => inr (TimeList (ts ++ [t]))
  | _ => inl AttributeError
  end.

Definition state_append (d : dyn_state_value) (s : list Q)
    : result dyn_state_value :=
  match d with
  | StateList ss => inr (StateList (ss ++ [s]))
  | _ => inl AttributeError
  end.

Definition dynamic : Type := (dyn_time_value * dyn_state_value)%type.

(** The body of the loop over the macro steps. *)
Definition simulate_step (solution : solve_type) (collect_dynamic : bool)
    (step int_step : Q) (dyn : dynamic) (t : Q) : M dynamic :=
  next_states <- _calculate_states solution t step int_step ;;
  self <- get ;;
  put (set_states next_states self) ;;;
  if collect_dynamic then
    dyn_state <- lift (state_append (snd dyn) next_states) ;;
    dyn_time <- lift (time_append (fst dyn) t) ;;
    ret (dyn_time, dyn_state)
  else
    ret (TimeLast t, StateLast next_states).

Definition simulate_static (steps : Z) (time : Q) (solution : solve_type)
    (collect_dynamic : bool) : M dynamic :=
  if solve_type_eqb solution FAST then
    raise (NameError
      "Solver FAST is not support due to low accuracy that leads to huge error.")
  else if solve_type_eqb solution RKF45 then
    raise (NameError "Solver RKF45 is not support in python version.")
  else
    self <- get ;;
    let dyn : dynamic :=
      if collect_dynamic
      then (TimeList [0], StateList [_states self])
      else (TimeNone, StateNone) in
    step <- lift (truediv time steps) ;;
    let int_step := step / 10 in
    ts <- lift (arange step (time + step) step) ;;
    for_loop (simulate_step solution collect_dynamic step int_step) ts dyn.

Definition simulate (steps : Z) (time : Q) (solution : solve_type)
    (collect_dynamic : bool) : M dynamic :=
  simulate_static steps time solution collect_dynamic.

Definition simulate_dynamic : M dynamic :=
  raise (NameError
    "Dynamic simulation is not supported due to lack of stop conditions for the model").

End Network.

(** ** allocate_sync_ensembles *)

(** The test of the innermost loop, on [self._states], in exact
    arithmetic; [in_tolerance_by] below is the test in any arithmetic. *)
Definition in_tolerance (states : list Q) (tolerance : Q) (i neuron_index : nat)
    : result bool :=
  rbind (getitem states i) (fun si =>
    rbind (getitem states neuron_index) (fun sn =>
      inr (Qltb si (sn + tolerance) && Qltb (sn - tolerance) si))).

(** [for neuron_index in cluster]: whether the loop left through its
    [break], where [i] has been appended to the cluster. *)
Fixpoint scan_cluster (states : list Q) (tolerance : Q) (i : nat)
    (cluster : list nat) : result bool :=
  match cluster with
  | [] => inr false
  | neuron_index :: cluster' =>
      rbind (in_tolerance states tolerance i neuron_index) (fun b =>
        if b then inr true else scan_cluster states tolerance i cluster')
  end.

(** [for cluster in clusters]: the flag [cluster_allocated] and the
    clusters after the loop. *)
Fixpoint scan_clusters (states : list Q) (tolerance : Q) (i : nat)
    (clusters : list (list nat)) : result (bool * list (list nat)) :=
  match clusters with
  | [] => inr (false, [])
  | cluster :: clusters' =>
      rbind (scan_cluster states tolerance i cluster) (fun cluster_allocated =>
        if cluster_allocated then inr (true, (cluster ++ [i]) :: clusters')
        else
          rbind (scan_clusters states tolerance i clusters') (fun r =>
            inr (fst r, cluster :: snd r)))
  end.

Definition allocate_step (states : list Q) (tolerance : Q)
    (acc : result (list (list nat))) (i : nat) : result (list (list nat)) :=
  rbind acc (fun clusters =>
    rbind (scan_clusters states tolerance i clusters) (fun r =>
      if fst r then inr (snd r) else inr (snd r ++ [[i]]))).

Definition allocate_sync_ensembles (self : hysteresis_network) (tolerance : Q)
    : result (list (list nat)) :=
  fold_left (allocate_step (_states self) tolerance)
            (seq 1 (_num_osc self - 1)) (inr [[0%nat]]).

(** ** Specification-level definitions *)

(** A network whose fields have the shape the constructor gives them:
    [num_osc] states, outputs and buffered outputs, and a square weight
    matrix of that size. *)
Definition well_formed (self : hysteresis_network) : Prop :=
  length (_states self) = _num_osc self /\
  length (_outputs_buffer self) = _num_osc self /\
  length (_outputs self) = _num_osc self /\
  length (_weight self) = _num_osc self /\
  Forall (fun row => length row = _num_osc self) (_weight self).

(** The buffer holds the published outputs: the state between macro
    steps. *)
Definition synced (self : hysteresis_network) : Prop :=
  _outputs_buffer self = _outputs self.

Definition weight_at (self : hysteresis_network) (i j : nat) : Q :=
  default 0 (_weight self !! i ≫= fun row => row !! j).

Definition output_at (self : hysteresis_network) (j : nat) : Q :=
  default 0 (_outputs self !! j).

(** The impact as the specification words it: the self-feedback term plus
    the sum over the connected sources. *)
Definition impact_spec (has_connection : nat -> nat -> bool)
    (self : hysteresis_network) (index : nat) : Q :=
  weight_at self index index * output_at self index +
  fold_right Qplus 0
    (map (fun j => weight_at self index j * output_at self j)
         (List.filter (fun j => has_connection j index)
                      (seq 0 (_num_osc self)))).

(** The value the two threshold tests leave in a buffer slot holding [v]. *)
Definition latch_value (xi v : Q) : Q :=
  let v1 := if Qltb 1 xi then 1 else v in
  if Qltb xi (-1) then -1 else v1.

(** An output value of the discrete set. *)
Definition bipolar (v : Q) : Prop := v == 1 \/ v == -1.

(** The state values at which the integrator evaluates [neuron_states]
    for the oscillator [index], starting from the fields [self]. *)
Fixpoint evaluated (has_connection : nat -> nat -> bool) (p : integrator)
    (index : nat) (self : hysteresis_network) : list Q :=
  match p with
  | Trajectory _ => []
  | Evaluate y t k =>
      y :: match neuron_states has_connection y t index self with
           | (inr dx, self') => evaluated has_connection (k dx) index self'
           | (inl _, _) => []
           end
  end.

(** The state values of oscillator [index] seen by the derivative function
    during the macro step ending at [t]. *)
Definition step_states (has_connection : nat -> nat -> bool)
    (odeint : Q -> list Q -> integrator) (self : hysteresis_network)
    (t step int_step : Q) (index : nat) : list Q :=
  match _states self !! index, arange (t - step) t int_step with
  | Some y0, inr ts => evaluated has_connection (odeint y0 ts) index self
  | _, _ => []
  end.

(** The contract of the integrator: one value per time point. *)
Fixpoint returns_length (n : nat) (p : integrator) : Prop :=
  match p with
  | Trajectory values => length values = n
  | Evaluate _ _ k => forall dx, returns_length n (k dx)
  end.

(** The first-fit rule as the specification words it. *)
Definition close_to (states : list Q) (tolerance : Q) (i m : nat) : bool :=
  Qltb (Qabs (default 0 (states !! i) - default 0 (states !! m))) tolerance.

Fixpoint first_fit_place (states : list Q) (tolerance : Q) (i : nat)
    (groups : list (list nat)) : list (list nat) :=
  match groups with
  | [] => [[i]]
  | g :: groups' =>
      if existsb (close_to states tolerance i) g then (g ++ [i]) :: groups'
      else g :: first_fit_place states tolerance i groups'
  end.

Definition first_fit (states : list Q) (tolerance : Q) (n : nat)
    : list (list nat) :=
  fold_left (fun groups i => first_fit_place states tolerance i groups)
            (seq 1 (n - 1)) [[0%nat]].

(** ** Example instances *)

(** All-to-all coupling without self-connections. *)
Definition all_to_all (i j : nat) : bool := negb (Nat.eqb i j).

(** An explicit Euler integrator over the given time points. *)
Fixpoint euler_steps (acc : list Q) (y t : Q) (ts : list Q) : integrator :=
  match ts with
  | [] => Trajectory (acc ++ [y])
  | t' :: ts' =>
      Evaluate y t (fun dy =>
        euler_steps (acc ++ [y]) (Qred (y + (t' - t) * dy)) t' ts')
  end.

Definition euler (y0 : Q) (ts : list Q) : integrator :=
  match ts with
  | [] => Trajectory []
  | t0 :: ts' => euler_steps [] y0 t0 ts'
  end.

(** An integrator that returns the time points it was given. *)
Definition echo_time_points (y0 : Q) (ts : list Q) : integrator :=
  Trajectory ts.

Definition network_of (r : result hysteresis_network) : hysteresis_network :=
  match r with
  | inr self => self
  | inl _ => mk_network 0 [] [] [] []
  end.

(** Row [i] of the weight matrix the constructor builds. *)
Definition weight_row (n : nat) (own_weight neigh_weight : Q) (i : nat)
    : list Q :=
  <[i := own_weight]> (replicate n neigh_weight).

(** The impact in the order the loop of [neuron_states] adds it up. *)
Definition impact_value (has_connection : nat -> nat -> bool)
    (self : hysteresis_network) (index : nat) : Q :=
  fold_left
    (fun impact i =>
       if has_connection i index
       then impact + weight_at self index i * output_at self i
       else impact)
    (seq 0 (_num_osc self))
    (weight_at self index index * output_at self index).

(** *** The integrator against a pure derivative function *)

(** The derivative function of one oscillator while the outputs stay
    fixed: [y |-> - y + c]. *)
Definition relaxation (c : Q) (y : Q) : Q := - y + c.

(** The trajectory an integrator returns for the derivative [d]. *)
Fixpoint trajectory_of (d : Q -> Q) (p : integrator) : list Q :=
  match p with
  | Trajectory values => values
  | Evaluate y _ k => trajectory_of d (k (d y))
  end.

(** The state values at which it evaluates [d], in order. *)
Fixpoint queries_of (d : Q -> Q) (p : integrator) : list Q :=
  match p with
  | Trajectory _ => []
  | Evaluate y _ k => y :: queries_of d (k (d y))
  end.

(** The value a buffer slot holds after the threshold tests of a whole
    sequence of evaluations. *)
Definition latch_all (xs : list Q) (v : Q) : Q :=
  fold_left (fun v x => latch_value x v) xs v.

(** The integrator call of oscillator [index] in the macro step ending at
    [t], on the fields [self]. *)
Definition oscillator_plan (odeint : Q -> list Q -> integrator)
    (self : hysteresis_network) (t step int_step : Q) (index : nat)
    : result integrator :=
  rbind (getitem (_states self) index) (fun y0 =>
    rbind (arange (t - step) t int_step) (fun ts =>
      inr (odeint y0 ts))).

(** The loop of [_calculate_states] over an order of oscillators, on the
    local list [next_states] and the buffer, every oscillator reading the
    states and outputs of [self]. *)
Fixpoint step_loop (has_connection : nat -> nat -> bool)
    (odeint : Q -> list Q -> integrator) (self : hysteresis_network)
    (t step int_step : Q) (order : list nat) (next_states buf : list Q)
    : result (list Q) * list Q :=
  match order with
  | [] => (inr next_states, buf)
  | index :: order' =>
      match oscillator_plan odeint self t step int_step index with
      | inl e => (inl e, buf)
      | inr p =>
          let d := relaxation (impact_value has_connection self index) in
          let buf' := alter (latch_all (queries_of d p)) index buf in
          match last_value (trajectory_of d p) with
          | inl e => (inl e, buf')
          | inr v =>
              step_loop has_connection odeint self t step int_step order'
                        (<[index := v]> next_states) buf'
          end
      end
  end.

(** A property of the fields that a computation keeps, whether it
    returns or raises. *)
Definition preserves {A} (P : hysteresis_network -> Prop) (m : M A) : Prop :=
  forall self, P self -> P (snd (m self)).

Definition bipolar_fields (self : hysteresis_network) : Prop :=
  Forall bipolar (_outputs self) /\ Forall bipolar (_outputs_buffer self).

(** Strictly inside the dead band. *)
Definition in_band (x : Q) : Prop := -1 < x /\ x < 1.

(** Two outcomes of the oscillator loop that a caller cannot tell apart:
    the same exception, or the same new states and the same buffer. *)
Definition same_outcome (r1 r2 : result (list Q) * list Q) : Prop :=
  match fst r1, fst r2 with
  | inr next1, inr next2 => next1 = next2 /\ snd r1 = snd r2
  | inl e1, inl e2 => e1 = e2
  | _, _ => False
  end.

(** What [simulate_static] returns without recording, from the time
    points and the states of the macro steps. *)
Definition final_dynamic (d0 : dynamic) (ts : list Q) (ss : list (list Q))
    : dynamic :=
  match last ts, last ss with
  | Some t, Some s => (TimeLast t, StateLast s)
  | _, _ => d0
  end.

(** The time points [start + i * step] for [i < n]. *)
Definition time_points (start step : Q) (n : nat) : list Q :=
  map (fun i : nat => start + inject_Z (Z.of_nat i) * step) (seq 0 n).

(** The two-oscillator network of the unit tests: weights -4 and -1,
    states [1, 0], outputs [1, 1]. *)
Definition example_network : hysteresis_network :=
  set_states [1; 0]
    (set_outputs_buffer [1; 1]
       (set_outputs [1; 1] (network_of (init 2 (-4) (-1))))).

(** The five states of the unit tests, and five states in two ensembles. *)
Definition spread_network : hysteresis_network :=
  mk_network 5 [1; 1 # 2; 0; - (1 # 2); -1] [] [] [].

Definition chained_network : hysteresis_network :=
  mk_network 5 [1; 105 # 100; 102 # 100; 5; 501 # 100] [] [] [].

(** What the recording call and the plain call of [simulate] return for
    [n] macro steps from the states [initial]: [n + 1] time points and
    state vectors starting with time 0 and [initial], and their last
    pair. *)
Definition snapshots_match (n : nat) (initial : list Q) (d1 d2 : dynamic)
    : Prop :=
  exists ts ss t s,
    d1 = (TimeList ts, StateList ss) /\
    d2 = (TimeLast t, StateLast s) /\
    length ts = S n /\
    length ss = S n /\
    ts !! 0%nat = Some 0 /\
    ss !! 0%nat = Some initial /\
    last ts = Some t /\
    last ss = Some s.

(** The fields [s] differ from the fields [self0] in the contents of the
    buffer only. *)
Definition buffer_only (self0 s : hysteresis_network) : Prop :=
  s = set_outputs_buffer (_outputs_buffer s) self0 /\
  length (_outputs_buffer s) = length (_outputs_buffer self0).

(** The returned dynamic ends with the states the network holds. *)
Definition ends_with_states (d : dynamic) (s : hysteresis_network) : Prop :=
  match snd d with
  | StateNone => False
  | StateLast v => v = _states s
  | StateList ss => last ss = Some (_states s)
  end.

(** The dynamic has the type the recording flag gives it. *)
Definition dynamic_fits (collect_dynamic : bool) (d : dynamic) : Prop :=
  if collect_dynamic
  then exists tl sl, d = (TimeList tl, StateList sl)
  else True.

(** Every oscillator in a group of its own. *)
Definition singletons (n : nat) : list (list nat) :=
  map (fun i : nat => [i]) (seq 0 n).

(** [if values is not None: network.attr = values] *)
Definition optional_setter (setter : list Q -> M unit)
    (values : option (list Q)) : M unit :=
  match values with
  | Some v => setter v
  | None => ret tt
  end.

(** The set-up of the unit-test template on a constructed network: the
    optional assignments of the states and of the outputs, then
    [simulate(steps, time)] with its default method and recording. *)
Definition template_simulation (has_connection : nat -> nat -> bool)
    (odeint : Q -> list Q -> integrator) (steps : Z) (time : Q)
    (initial_states initial_outputs : option (list Q)) : M dynamic :=
  optional_setter states_setter initial_states ;;;
  optional_setter outputs_setter initial_outputs ;;;
  simulate has_connection odeint steps time RK4 true.

(** The dynamic a call returned, and its recorded lists. *)
Definition returned_dynamic (r : result dynamic * hysteresis_network)
    : dynamic :=
  match fst r with
  | inr d => d
  | inl _ => (TimeNone, StateNone)
  end.

Definition recorded_time_list (d : dynamic) : list Q :=
  match fst d with
  | TimeList ts => ts
  | _ => []
  end.

Definition recorded_state_list (d : dynamic) : list (list Q) :=
  match snd d with
  | StateList ss => ss
  | _ => []
  end.

Definition returned_states (r : result (list Q) * hysteresis_network)
    : list Q :=
  match fst r with
  | inr next_states => next_states
  | inl _ => []
  end.

(** The constructed two-oscillator network with the first state above the
    upper threshold. *)
Definition excited_network : hysteresis_network :=
  set_states [3 # 2; 0] (network_of (init 2 (-4) (-1))).

(** Three oscillators of a network that was given one state only. *)
Definition short_network : hysteresis_network :=
  mk_network 3 [1] [] [] [].

(** ** The allocator in the arithmetic of the code

    The loops of [allocate_sync_ensembles] over any number type, with its
    own comparison, sum and difference: the test of the innermost loop is
    [states[i] < states[neuron_index] + tolerance and
     states[i] > states[neuron_index] - tolerance], the sum and the
    difference as that arithmetic computes them. *)

Section AnyArithmetic.

Variable num : Type.
Variable less : num -> num -> bool.
Variable plus : num -> num -> num.
Variable minus : num -> num -> num.

Definition in_tolerance_by (states : list num) (tolerance : num)
    (i neuron_index : nat) : result bool :=
  rbind (getitem states i) (fun si =>
    rbind (getitem states neuron_index) (fun sn =>
      inr (less si (plus sn tolerance) && less (minus sn tolerance) si))).

Fixpoint scan_cluster_by (states : list num) (tolerance : num) (i : nat)
    (cluster : list nat) : result bool :=
  match cluster with
  | [] => inr false
  | neuron_index :: cluster' =>
      rbind (in_tolerance_by states tolerance i neuron_index) (fun b =>
        if b then inr true else scan_cluster_by states tolerance i cluster')
  end.

Fixpoint scan_clusters_by (states : list num) (tolerance : num) (i : nat)
    (clusters : list (list nat)) : result (bool * list (list nat)) :=
  match clusters with
  | [] => inr (false, [])
  | cluster :: clusters' =>
      rbind (scan_cluster_by states tolerance i cluster)
        (fun cluster_allocated =>
           if cluster_allocated then inr (true, (cluster ++ [i]) :: clusters')
           else
             rbind (scan_clusters_by states tolerance i clusters') (fun r =>
               inr (fst r, cluster :: snd r)))
  end.

Definition allocate_step_by (states : list num) (tolerance : num)
    (acc : result (list (list nat))) (i : nat) : result (list (list nat)) :=
  rbind acc (fun clusters =>
    rbind (scan_clusters_by states tolerance i clusters) (fun r =>
      if fst r then inr (snd r) else inr (snd r ++ [[i]]))).

Definition allocate_sync_ensembles_by (num_osc : nat) (states : list num)
    (tolerance : num) : result (list (list nat)) :=
  fold_left (allocate_step_by states tolerance) (seq 1 (num_osc - 1))
            (inr [[0%nat]]).

(** The test of the code on two oscillators that have a state. *)
Definition passes_test (states : list num) (tolerance : num) (i m : nat)
    : bool :=
  match states !! i, states !! m with
  | Some si, Some sm =>
      less si (plus sm tolerance) && less (minus sm tolerance) si
  | _, _ => false
  end.

End AnyArithmetic.

(** The first-fit rule for any test [near i m] of an index against a
    member. *)
Fixpoint first_fit_place_by (near : nat -> nat -> bool) (i : nat)
    (groups : list (list nat)) : list (list nat) :=
  match groups with
  | [] => [[i]]
  | g :: groups' =>
      if existsb (near i) g then (g ++ [i]) :: groups'
      else g :: first_fit_place_by near i groups'
  end.

Definition first_fit_by (near : nat -> nat -> bool) (n : nat)
    : list (list nat) :=
  fold_left (fun groups i => first_fit_place_by near i groups)
            (seq 1 (n - 1)) [[0%nat]].

(** Every member of the group after its first passes the test against a
    member before it. *)
Definition chained_by (near : nat -> nat -> bool) (g : list nat) : Prop :=
  forall (j i : nat), (0 < j)%nat -> g !! j = Some i ->
    exists (j' m : nat),
      (j' < j)%nat /\ g !! j' = Some m /\ near i m = true.

(** The first member of the group is oscillator 0, or fails the test
    against every oscillator before it. *)
Definition fresh_head_by (near : nat -> nat -> bool) (g : list nat) : Prop :=
  forall h : nat, head g = Some h ->
    h = 0%nat \/ forall m : nat, (m < h)%nat -> near h m = false.

(** ** Binary64: the numbers of the code

    Python floats and the elements of numpy arrays are IEEE 754 binary64
    numbers, here the primitive floats. *)

(** [float(z)] for an integer. *)
Definition of_int (z : Z) : PrimFloat.float :=
  if (z <? 0)%Z
  then PrimFloat.opp (PrimFloat.of_uint63 (Uint63.of_Z (- z)))
  else PrimFloat.of_uint63 (Uint63.of_Z z).

(** The float a decimal literal [n / d] denotes, for integers the floats
    hold exactly: the quotient, rounded once. *)
Definition decimal (n d : Z) : PrimFloat.float :=
  PrimFloat.div (of_int n) (of_int d).

(** [ceil(x)] as an integer; nothing for an infinity or a NaN. *)
Definition float_ceiling (x : PrimFloat.float) : option Z :=
  match FloatOps.Prim2SF x with
  | SpecFloat.S754_zero _ => Some 0%Z
  | SpecFloat.S754_finite s m e =>
      let v := if s then Z.neg m else Z.pos m in
      Some (if (0 <=? e)%Z then (v * 2 ^ e)%Z
            else (- ((- v) / 2 ^ (- e)))%Z)
  | _ => None
  end.

(** [time / steps] for a float [time] and an integer [steps]. *)
Definition truediv_binary64 (time : PrimFloat.float) (steps : Z)
    : result PrimFloat.float :=
  if Z.eqb steps 0 then inl ZeroDivisionError
  else inr (PrimFloat.div time (of_int steps)).

(** [numpy.arange(start, stop, step)] on Python floats: the length is
    [ceil((stop - start) / step)] computed in floats; the array holds
    [start], [start + step] and then [start + i * delta] with
    [delta = (start + step) - start]. *)
Definition arange_binary64 (start stop step : PrimFloat.float)
    : result (list PrimFloat.float) :=
  if PrimFloat.eqb step PrimFloat.zero then inl ZeroDivisionError
  else
    match float_ceiling
            (PrimFloat.div (PrimFloat.sub stop start) step) with
    | None => inl ValueError
    | Some len =>
        let next := PrimFloat.add start step in
        let delta := PrimFloat.sub next start in
        inr (match Z.to_nat len with
             | O => []
             | S O => [start]
             | S (S n) =>
                 start :: next ::
                 map (fun i : nat =>
                        PrimFloat.add start
                          (PrimFloat.mul (of_int (Z.of_nat i)) delta))
                     (seq 2 n)
             end)
    end.

(** The array the loop of [simulate_static] runs over:
    [step = time / steps] and
    [numpy.arange(step, time + step, step)]. *)
Definition macro_step_times (steps : Z) (time : PrimFloat.float)
    : result (list PrimFloat.float) :=
  rbind (truediv_binary64 time steps) (fun step =>
    arange_binary64 step (PrimFloat.add time step) step).

(** [allocate_sync_ensembles] on float states. *)
Definition allocate_sync_ensembles_binary64 (num_osc : nat)
    (states : list PrimFloat.float) (tolerance : PrimFloat.float)
    : result (list (list nat)) :=
  allocate_sync_ensembles_by PrimFloat.float PrimFloat.ltb PrimFloat.add
    PrimFloat.sub num_osc states tolerance.

(** The test of the code, and the test [|s_i - s_m| < tolerance], on
    floats. *)
Definition code_test_binary64 (states : list PrimFloat.float)
    (tolerance : PrimFloat.float) (i m : nat) : bool :=
  passes_test PrimFloat.float PrimFloat.ltb PrimFloat.add PrimFloat.sub
    states tolerance i m.

Definition absolute_test_binary64 (states : list PrimFloat.float)
    (tolerance : PrimFloat.float) (i m : nat) : bool :=
  match states !! i, states !! m with
  | Some si, Some sm =>
      PrimFloat.ltb (PrimFloat.abs (PrimFloat.sub si sm)) tolerance
  | _, _ => false
  end.

(** The states of the two documented examples, and two states a tenth
    apart. *)
Definition spread_states : list PrimFloat.float :=
  [of_int 1; decimal 5 10; of_int 0; decimal (-5) 10; of_int (-1)].

Definition chained_states : list PrimFloat.float :=
  [of_int 1; decimal 105 100; decimal 102 100; of_int 5; decimal 501 100].

Definition tenth_apart_states : list PrimFloat.float :=
  [of_int 5; decimal 49 10].

(** ** Basic facts *)

Lemma Qltb_lt (x y : Q) : Qltb x y = true <-> x < y.
Proof.
  unfold Qltb. rewrite negb_true_iff, <- not_true_iff_false, Qle_bool_iff.
  split; [apply Qnot_le_lt | apply Qlt_not_le].
Qed.

Lemma Qltb_ge (x y : Q) : Qltb x y = false <-> y <= x.
Proof.
  unfold Qltb. rewrite negb_false_iff. apply Qle_bool_iff.
Qed.

Lemma getitem_lookup {A} (l : list A) (i : nat) (v : A) :
  l !! i = Some v -> getitem l i = inr v.
Proof. unfold getitem. now intros ->. Qed.

Lemma getitem_lt {A} (l : list A) (i : nat) :
  (i < length l)%nat -> exists v, l !! i = Some v /\ getitem l i = inr v.
Proof.
  intros H. destruct (lookup_lt_is_Some_2 l i H) as [v Hv].
  exists v. split; [exact Hv | now apply getitem_lookup].
Qed.

Lemma setitem_lt {A} (l : list A) (i : nat) (v : A) :
  (i < length l)%nat -> setitem l i v = inr (<[i := v]> l).
Proof. unfold setitem. intros H. now rewrite decide_True. Qed.

Lemma setitem_ge {A} (l : list A) (i : nat) (v : A) :
  (length l <= i)%nat -> setitem l i v = inl IndexError.
Proof. unfold setitem. intros H. rewrite decide_False; [easy | lia]. Qed.

(** ** The constructor *)

Lemma init_weight_step_row (n : nat) (own_weight neigh_weight : Q)
    (k : nat) (w : list (list Q)) :
  (k < n)%nat -> length w = k ->
  init_weight_step n own_weight neigh_weight (inr w) k
  = inr (w ++ [weight_row n own_weight neigh_weight k]).
Proof.
  intros Hk Hw. unfold init_weight_step. simpl.
  assert (Hrow : (w ++ [replicate n neigh_weight]) !! k
                 = Some (replicate n neigh_weight)).
  { rewrite lookup_app_r by lia. now replace (k - length w)%nat with O by lia. }
  rewrite (getitem_lookup _ _ _ Hrow). simpl.
  rewrite setitem_lt by (rewrite length_replicate; lia). simpl.
  rewrite setitem_lt by (rewrite length_app; simpl; lia).
  rewrite insert_app_r_alt by lia.
  now replace (k - length w)%nat with O by lia.
Qed.

Lemma init_weight_fold (n : nat) (own_weight neigh_weight : Q) :
  forall (m k : nat) (w : list (list Q)),
    (k + m = n)%nat -> length w = k ->
    fold_left (init_weight_step n own_weight neigh_weight) (seq k m) (inr w)
    = inr (w ++ map (weight_row n own_weight neigh_weight) (seq k m)).
Proof.
  induction m as [|m IH]; intros k w Hn Hw; cbn [seq fold_left List.map].
  - now rewrite app_nil_r.
  - rewrite init_weight_step_row by lia.
    rewrite IH by (try rewrite length_app; simpl; lia).
    now rewrite <- app_assoc.
Qed.

Lemma init_weight_closed (n : nat) (own_weight neigh_weight : Q) :
  init_weight n own_weight neigh_weight
  = inr (map (weight_row n own_weight neigh_weight) (seq 0 n)).
Proof.
  unfold init_weight. now rewrite (init_weight_fold n _ _ n 0%nat []).
Qed.

Lemma weight_row_lookup (n : nat) (own_weight neigh_weight : Q) (i j : nat) :
  (i < n)%nat -> (j < n)%nat ->
  weight_row n own_weight neigh_weight i !! j
  = Some (if decide (i = j) then own_weight else neigh_weight).
Proof.
  intros Hi Hj. unfold weight_row. destruct (decide (i = j)) as [->|Hne].
  - apply list_lookup_insert_eq. now rewrite length_replicate.
  - rewrite list_lookup_insert_ne by exact Hne.
    now apply lookup_replicate_2.
Qed.

(** C10: construction yields [n] zero states, [n] outputs and [n] buffered
    outputs all equal to -1 (so the buffer equals the outputs), and an
    [n] by [n] weight matrix with [own_weight] on the diagonal and
    [neigh_weight] everywhere else. *)
Theorem init_fields (n : nat) (own_weight neigh_weight : Q) :
  exists self,
    init n own_weight neigh_weight = inr self /\
    _num_osc self = n /\
    _states self = replicate n 0 /\
    _outputs self = replicate n (-1) /\
    _outputs_buffer self = replicate n (-1) /\
    _outputs_buffer self = _outputs self /\
    length (_weight self) = n /\
    forall i j : nat, (i < n)%nat -> (j < n)%nat ->
      exists row,
        _weight self !! i = Some row /\ length row = n /\
        row !! j = Some (if decide (i = j) then own_weight else neigh_weight).
Proof.
  unfold init. rewrite init_weight_closed. simpl.
  eexists. split; [reflexivity|]. simpl.
  repeat split.
  - now rewrite length_map, length_seq.
  - intros i j Hi Hj.
    exists (weight_row n own_weight neigh_weight i). repeat split.
    + rewrite list_lookup_fmap, lookup_seq_lt by exact Hi. reflexivity.
    + unfold weight_row. now rewrite length_insert, length_replicate.
    + now apply weight_row_lookup.
Qed.

Lemma init_fields_witness :
  exists self,
    init 3 (-4) (-1) = inr self /\
    _weight self !! 1%nat = Some [-1; -4; -1] /\
    _outputs_buffer self = _outputs self.
Proof.
  destruct (init_fields 3 (-4) (-1))
    as (self & Hinit & _ & _ & _ & _ & Hsync & _ & Hw).
  exists self. split; [exact Hinit|]. split; [|exact Hsync].
  destruct (Hw 1%nat 0%nat ltac:(lia) ltac:(lia)) as (row & Hrow & Hlen & H0).
  destruct (Hw 1%nat 1%nat ltac:(lia) ltac:(lia)) as (row1 & Hrow1 & _ & H1).
  destruct (Hw 1%nat 2%nat ltac:(lia) ltac:(lia)) as (row2 & Hrow2 & _ & H2).
  rewrite Hrow in Hrow1, Hrow2. injection Hrow1 as <-. injection Hrow2 as <-.
  rewrite Hrow. f_equal.
  destruct row as [|a [|b [|c [|d row]]]]; try discriminate Hlen.
  simpl in H0, H1, H2. now injection H0 as ->; injection H1 as ->; injection H2 as ->.
Defined.

(** ** The derivative function *)

Section Derivative.

Variable has_connection : nat -> nat -> bool.

Lemma weight_lookup (self : hysteresis_network) (i j : nat) :
  well_formed self -> (i < _num_osc self)%nat -> (j < _num_osc self)%nat ->
  exists row,
    _weight self !! i = Some row /\ row !! j = Some (weight_at self i j).
Proof.
  intros (_ & _ & _ & Hw & Hrows) Hi Hj.
  destruct (lookup_lt_is_Some_2 (_weight self) i) as [row Hrow]; [lia|].
  assert (Hlen : length row = _num_osc self).
  { rewrite Forall_forall in Hrows. apply Hrows.
    eapply list_elem_of_lookup_2. exact Hrow. }
  destruct (lookup_lt_is_Some_2 row j) as [w Hwj]; [lia|].
  exists row. split; [exact Hrow|].
  unfold weight_at. rewrite Hrow. simpl. now rewrite Hwj.
Qed.

Lemma output_lookup (self : hysteresis_network) (j : nat) :
  well_formed self -> (j < _num_osc self)%nat ->
  _outputs self !! j = Some (output_at self j).
Proof.
  intros (_ & _ & Ho & _) Hj.
  destruct (lookup_lt_is_Some_2 (_outputs self) j) as [o Hoj]; [lia|].
  unfold output_at. now rewrite Hoj.
Qed.

Lemma own_impact_value (self : hysteresis_network) (index : nat) :
  well_formed self -> (index < _num_osc self)%nat ->
  own_impact self index
  = inr (weight_at self index index * output_at self index).
Proof.
  intros Hwf Hi. unfold own_impact.
  destruct (weight_lookup self index index Hwf Hi Hi) as (row & Hrow & Hw).
  rewrite (getitem_lookup _ _ _ Hrow). simpl.
  rewrite (getitem_lookup _ _ _ Hw). simpl.
  now rewrite (getitem_lookup _ _ _ (output_lookup self index Hwf Hi)).
Qed.

Lemma impact_step_value (self : hysteresis_network) (index i : nat)
    (impact : Q) :
  well_formed self -> (index < _num_osc self)%nat ->
  (i < _num_osc self)%nat ->
  impact_step has_connection self index (inr impact) i
  = inr (if has_connection i index
         then impact + weight_at self index i * output_at self i
         else impact).
Proof.
  intros Hwf Hindex Hi. unfold impact_step. simpl.
  destruct (has_connection i index); [|reflexivity].
  destruct (weight_lookup self index i Hwf Hindex Hi) as (row & Hrow & Hw).
  rewrite (getitem_lookup _ _ _ Hrow). simpl.
  rewrite (getitem_lookup _ _ _ Hw). simpl.
  now rewrite (getitem_lookup _ _ _ (output_lookup self i Hwf Hi)).
Qed.

Lemma impact_fold (self : hysteresis_network) (index : nat) :
  well_formed self -> (index < _num_osc self)%nat ->
  forall (js : list nat) (impact : Q),
    Forall (fun j => (j < _num_osc self)%nat) js ->
    fold_left (impact_step has_connection self index) js (inr impact)
    = inr (fold_left
             (fun impact i =>
                if has_connection i index
                then impact + weight_at self index i * output_at self i
                else impact) js impact).
Proof.
  intros Hwf Hindex. induction js as [|j js IH]; intros impact Hjs.
  - reflexivity.
  - inversion Hjs as [|? ? Hj Hjs']; subst. cbn [fold_left].
    rewrite impact_step_value by assumption. now apply IH.
Qed.

(** Under the constructor's shape the impact loop raises nothing. *)
Lemma impact_of_value (self : hysteresis_network) (index : nat) :
  well_formed self -> (index < _num_osc self)%nat ->
  impact_of has_connection self index
  = inr (impact_value has_connection self index).
Proof.
  intros Hwf Hindex. unfold impact_of, impact_value.
  rewrite own_impact_value by assumption.
  apply impact_fold; try assumption.
  apply Forall_forall. intros j Hj. apply elem_of_seq in Hj. lia.
Qed.

Lemma fold_left_sum (f : nat -> Q) (c : nat -> bool) :
  forall (js : list nat) (a : Q),
    fold_left (fun acc j => if c j then acc + f j else acc) js a
    == a + fold_right Qplus 0 (map f (List.filter c js)).
Proof.
  induction js as [|j js IH]; intros a; cbn [fold_left List.filter].
  - simpl. ring.
  - rewrite IH. destruct (c j); cbn [List.map fold_right]; ring.
Qed.

Lemma impact_value_spec (self : hysteresis_network) (index : nat) :
  impact_value has_connection self index
  == impact_spec has_connection self index.
Proof.
  unfold impact_value, impact_spec.
  apply (fold_left_sum
           (fun j => weight_at self index j * output_at self j)
           (fun j => has_connection j index)).
Qed.

(** The impact reads the weights and the published outputs only. *)
Lemma impact_of_buffer (self : hysteresis_network) (buf : list Q)
    (index : nat) :
  impact_of has_connection (set_outputs_buffer buf self) index
  = impact_of has_connection self index.
Proof. reflexivity. Qed.

(** *** The two threshold tests *)

Lemma latch_if_run (cond : bool) (index : nat) (v : Q)
    (self : hysteresis_network) :
  (index < length (_outputs_buffer self))%nat ->
  latch_if cond index v self
  = (inr tt,
     set_outputs_buffer
       (alter (fun old => if cond then v else old) index
              (_outputs_buffer self)) self).
Proof.
  intros Hi. destruct cond; unfold latch_if; simpl.
  - unfold bind, get, lift, put. rewrite setitem_lt by exact Hi.
    now rewrite list_insert_alter.
  - unfold ret. rewrite list_alter_id by reflexivity. now destruct self.
Qed.

(** One evaluation of the derivative function, in closed form. *)
Lemma neuron_states_run (self : hysteresis_network) (xi t c : Q)
    (index : nat) :
  impact_of has_connection self index = inr c ->
  (index < length (_outputs_buffer self))%nat ->
  neuron_states has_connection xi t index self
  = (inr (- xi + c),
     set_outputs_buffer
       (alter (latch_value xi) index (_outputs_buffer self)) self).
Proof.
  intros Hc Hi. unfold neuron_states.
  unfold bind at 1. unfold get at 1. unfold bind at 1. unfold lift at 1.
  rewrite Hc. unfold bind at 1.
  rewrite latch_if_run by exact Hi.
  unfold bind at 1. rewrite latch_if_run by (simpl; now rewrite length_alter).
  unfold ret. simpl. rewrite list_alter_alter_eq. reflexivity.
Qed.

End Derivative.

(** ** The integrator run *)

Section MacroStep.

Variable has_connection : nat -> nat -> bool.
Variable odeint : Q -> list Q -> integrator.

Lemma set_outputs_buffer_same (self : hysteresis_network) :
  set_outputs_buffer (_outputs_buffer self) self = self.
Proof. now destruct self. Qed.

Lemma latch_all_cons (x : Q) (xs : list Q) (v : Q) :
  latch_all (x :: xs) v = latch_all xs (latch_value x v).
Proof. reflexivity. Qed.

(** The integrator run on the fields is the integrator run on the pure
    relaxation, the threshold tests folded into the oscillator's own
    buffer slot. *)
Lemma integrate_run (c : Q) (index : nat) :
  forall (p : integrator) (self : hysteresis_network),
    impact_of has_connection self index = inr c ->
    (index < length (_outputs_buffer self))%nat ->
    integrate has_connection p index self
    = (inr (trajectory_of (relaxation c) p),
       set_outputs_buffer
         (alter (latch_all (queries_of (relaxation c) p)) index
                (_outputs_buffer self)) self).
Proof.
  induction p as [values | y t k IH]; intros self Hc Hi.
  - simpl. unfold ret. rewrite list_alter_id by reflexivity.
    now rewrite set_outputs_buffer_same.
  - cbn [integrate trajectory_of queries_of]. unfold bind.
    rewrite (neuron_states_run has_connection self y t c index Hc Hi).
    rewrite IH; [| exact Hc | simpl; now rewrite length_alter].
    simpl. rewrite list_alter_alter_eq. reflexivity.
Qed.

Lemma evaluated_queries (c : Q) (index : nat) :
  forall (p : integrator) (self : hysteresis_network),
    impact_of has_connection self index = inr c ->
    (index < length (_outputs_buffer self))%nat ->
    evaluated has_connection p index self = queries_of (relaxation c) p.
Proof.
  induction p as [values | y t k IH]; intros self Hc Hi.
  - reflexivity.
  - cbn [evaluated queries_of].
    rewrite (neuron_states_run has_connection self y t c index Hc Hi).
    f_equal. apply IH; [exact Hc | simpl; now rewrite length_alter].
Qed.

(** *** The loop over the oscillators *)

Lemma last_value_error (values : list Q) (e : exn) :
  last_value values = inl e -> e = IndexError.
Proof.
  unfold last_value, getitem. destruct values as [|v values]; simpl.
  - now intros [= <-].
  - destruct (lookup_lt_is_Some_2 (v :: values) (length values)) as [x Hx];
      [simpl; lia|].
    simpl in Hx. now rewrite Hx.
Qed.

Lemma last_value_nonempty (values : list Q) :
  (0 < length values)%nat -> exists v, last_value values = inr v.
Proof.
  unfold last_value. destruct values as [|v values]; simpl; [lia|].
  intros _. destruct (getitem_lt (v :: values) (length values)) as (x & _ & Hx);
    [simpl; lia|].
  exists x. exact Hx.
Qed.

Lemma integrate_oscillator_run (self : hysteresis_network)
    (t step int_step : Q) (index : nat) (next_states buf : list Q) :
  well_formed self -> (index < _num_osc self)%nat ->
  length next_states = _num_osc self -> length buf = _num_osc self ->
  integrate_oscillator has_connection odeint t step int_step next_states
    index (set_outputs_buffer buf self)
  = let r := step_loop has_connection odeint self t step int_step [index]
               next_states buf in
    (fst r, set_outputs_buffer (snd r) self).
Proof.
  intros Hwf Hi Hnext Hbuf. unfold integrate_oscillator.
  cbn [step_loop]. unfold oscillator_plan.
  unfold bind at 1. unfold get at 1. unfold bind at 1. unfold lift at 1.
  cbn [_states set_outputs_buffer].
  destruct (getitem (_states self) index) as [e|y0]; [reflexivity|].
  cbn [rbind]. unfold bind at 1. unfold lift at 1.
  destruct (arange (t - step) t int_step) as [e|ts]; [reflexivity|].
  cbn [rbind]. unfold bind at 1.
  rewrite (integrate_run (impact_value has_connection self index));
    [| rewrite impact_of_buffer; now apply impact_of_value | simpl; lia].
  cbn [_outputs_buffer set_outputs_buffer].
  unfold bind at 1. unfold lift at 1.
  destruct (last_value _) as [e|v]; [reflexivity|].
  unfold lift. rewrite setitem_lt by lia. reflexivity.
Qed.

Lemma step_loop_cons (self : hysteresis_network) (t step int_step : Q)
    (index : nat) (order : list nat) (next_states buf : list Q) :
  step_loop has_connection odeint self t step int_step (index :: order)
    next_states buf
  = match step_loop has_connection odeint self t step int_step [index]
            next_states buf with
    | (inr next_states', buf') =>
        step_loop has_connection odeint self t step int_step order
          next_states' buf'
    | (inl e, buf') => (inl e, buf')
    end.
Proof.
  cbn [step_loop].
  destruct (oscillator_plan odeint self t step int_step index);
    [reflexivity|].
  now destruct (last_value _).
Qed.

Lemma step_loop_length (self : hysteresis_network) (t step int_step : Q) :
  forall (order : list nat) (next_states buf : list Q),
    let r := step_loop has_connection odeint self t step int_step order
               next_states buf in
    length (snd r) = length buf /\
    forall next_states', fst r = inr next_states' ->
      length next_states' = length next_states.
Proof.
  induction order as [|index order IH]; intros next_states buf; cbn [step_loop].
  - simpl. split; [reflexivity|]. now intros ? [= <-].
  - destruct (oscillator_plan odeint self t step int_step index) as [e|p].
    + simpl. split; [reflexivity | discriminate].
    + destruct (last_value _) as [e|v]; simpl.
      * split; [now rewrite length_alter | discriminate].
      * specialize (IH (<[index:=v]> next_states)
                       (alter (latch_all (queries_of
                          (relaxation (impact_value has_connection self index))
                          p)) index buf)).
        simpl in IH. rewrite length_alter, length_insert in IH. exact IH.
Qed.

Lemma for_loop_run (self : hysteresis_network) (t step int_step : Q) :
  well_formed self ->
  forall (order : list nat) (next_states buf : list Q),
    Forall (fun i => (i < _num_osc self)%nat) order ->
    length next_states = _num_osc self -> length buf = _num_osc self ->
    for_loop (integrate_oscillator has_connection odeint t step int_step)
             order next_states (set_outputs_buffer buf self)
    = let r := step_loop has_connection odeint self t step int_step order
                 next_states buf in
      (fst r, set_outputs_buffer (snd r) self).
Proof.
  intros Hwf. induction order as [|index order IH];
    intros next_states buf Horder Hnext Hbuf.
  - reflexivity.
  - inversion Horder as [|? ? Hi Horder']; subst.
    cbn [for_loop]. unfold bind.
    rewrite integrate_oscillator_run by assumption.
    rewrite (step_loop_cons self t step int_step index order).
    pose proof (step_loop_length self t step int_step [index] next_states buf)
      as [Hlen1 Hlen2].
    destruct (step_loop has_connection odeint self t step int_step [index]
                next_states buf) as [[e|next_states'] buf'] eqn:Hone;
      cbn [fst snd] in *.
    + reflexivity.
    + apply IH; [assumption | | lia].
      rewrite (Hlen2 next_states' eq_refl). exact Hnext.
Qed.

(** One macro step in closed form. *)
Lemma calculate_states_in_run (self : hysteresis_network)
    (order : list nat) (solution : solve_type) (t step int_step : Q) :
  well_formed self ->
  Forall (fun i => (i < _num_osc self)%nat) order ->
  calculate_states_in has_connection odeint order solution t step int_step
    self
  = match step_loop has_connection odeint self t step int_step order
            (replicate (_num_osc self) 0) (_outputs_buffer self) with
    | (inr next_states, buf) =>
        (inr next_states, set_outputs buf (set_outputs_buffer buf self))
    | (inl e, buf) => (inl e, set_outputs_buffer buf self)
    end.
Proof.
  intros Hwf Horder. unfold calculate_states_in.
  unfold bind at 1. unfold get at 1. unfold bind at 1.
  pose proof (for_loop_run self t step int_step Hwf order
                (replicate (_num_osc self) 0) (_outputs_buffer self) Horder)
    as Hloop.
  rewrite set_outputs_buffer_same in Hloop.
  rewrite Hloop;
    [| now rewrite length_replicate | now destruct Hwf as (_ & ? & _)].
  cbn zeta.
  destruct (step_loop has_connection odeint self t step int_step order
              (replicate (_num_osc self) 0) (_outputs_buffer self))
    as [[e|next_states] buf]; reflexivity.
Qed.

End MacroStep.

(** ** Properties of the dynamics engine *)

Section Dynamics.

Variable has_connection : nat -> nat -> bool.
Variable odeint : Q -> list Q -> integrator.

(** C1: the derivative is [- x + impact], the impact being the
    self-feedback term plus the sum over the connected sources, computed
    from the weights and the published outputs; the states and outputs are
    not written, and the buffer's contents do not enter the value. *)
Theorem neuron_states_derivative (self : hysteresis_network) (xi t : Q)
    (index : nat) :
  well_formed self -> (index < _num_osc self)%nat ->
  exists x buf,
    neuron_states has_connection xi t index self
    = (inr x, set_outputs_buffer buf self) /\
    x == - xi + impact_spec has_connection self index /\
    forall buffer' : list Q,
      length buffer' = _num_osc self ->
      fst (neuron_states has_connection xi t index
             (set_outputs_buffer buffer' self)) = inr x.
Proof.
  intros Hwf Hi.
  pose proof (impact_of_value has_connection self index Hwf Hi) as Hc.
  exists (- xi + impact_value has_connection self index).
  eexists. split; [|split].
  - apply neuron_states_run; [exact Hc|].
    destruct Hwf as (_ & Hb & _). lia.
  - now rewrite impact_value_spec.
  - intros buffer' Hlen.
    rewrite (neuron_states_run has_connection _ xi t
               (impact_value has_connection self index) index);
      [reflexivity | exact Hc | simpl; lia].
Qed.

Lemma latch_value_above (xi v : Q) : 1 < xi -> latch_value xi v = 1.
Proof.
  intros H. unfold latch_value.
  rewrite (proj2 (Qltb_lt 1 xi) H).
  assert (Hlow : Qltb xi (-1) = false).
  { apply Qltb_ge. apply Qlt_le_weak. now apply Qlt_trans with 1. }
  now rewrite Hlow.
Qed.

Lemma latch_value_below (xi v : Q) : xi < -1 -> latch_value xi v = -1.
Proof.
  intros H. unfold latch_value. now rewrite (proj2 (Qltb_lt xi (-1)) H).
Qed.

Lemma latch_value_between (xi v : Q) :
  ~ 1 < xi -> ~ xi < -1 -> latch_value xi v = v.
Proof.
  intros Hhi Hlo. unfold latch_value.
  destruct (Qltb 1 xi) eqn:E1; [apply Qltb_lt in E1; contradiction|].
  destruct (Qltb xi (-1)) eqn:E2; [apply Qltb_lt in E2; contradiction|].
  reflexivity.
Qed.

Lemma latch_all_in_band (xs : list Q) (v : Q) :
  Forall in_band xs -> latch_all xs v = v.
Proof.
  revert v. induction xs as [|x xs IH]; intros v Hxs; [reflexivity|].
  inversion Hxs as [|? ? [Hlo Hhi] Hxs']; subst.
  rewrite latch_all_cons, latch_value_between.
  - now apply IH.
  - now apply Qle_not_lt, Qlt_le_weak.
  - now apply Qle_not_lt, Qlt_le_weak.
Qed.

(** The buffer slot of an oscillator whose evaluations stay in the band
    is the same after the loop over any order of oscillators. *)
Lemma step_loop_slot (self : hysteresis_network) (t step int_step : Q)
    (index : nat) :
  (forall p, oscillator_plan odeint self t step int_step index = inr p ->
     Forall in_band
       (queries_of (relaxation (impact_value has_connection self index)) p)) ->
  forall (order : list nat) (next_states buf : list Q),
    snd (step_loop has_connection odeint self t step int_step order
           next_states buf) !! index = buf !! index.
Proof.
  intros Hband. induction order as [|j order IH]; intros next_states buf.
  - reflexivity.
  - cbn [step_loop].
    destruct (oscillator_plan odeint self t step int_step j) as [e|p] eqn:Hp;
      [reflexivity|].
    assert (Hslot :
      alter (latch_all (queries_of
               (relaxation (impact_value has_connection self j)) p)) j buf
        !! index = buf !! index).
    { destruct (decide (j = index)) as [->|Hne].
      - rewrite list_lookup_alter_eq.
        destruct (buf !! index) as [v|]; [|reflexivity].
        simpl. f_equal. apply latch_all_in_band. now apply Hband.
      - now apply list_lookup_alter_ne. }
    destruct (last_value _) as [e|v]; [exact Hslot|].
    rewrite IH. exact Hslot.
Qed.

Lemma step_states_queries (self : hysteresis_network) (t step int_step : Q)
    (index : nat) (p : integrator) :
  well_formed self -> (index < _num_osc self)%nat ->
  oscillator_plan odeint self t step int_step index = inr p ->
  step_states has_connection odeint self t step int_step index
  = queries_of (relaxation (impact_value has_connection self index)) p.
Proof.
  intros Hwf Hi. unfold oscillator_plan, step_states, getitem.
  destruct (_states self !! index) as [y0|]; [|discriminate].
  simpl. destruct (arange (t - step) t int_step) as [e|ts]; [discriminate|].
  simpl. intros [= <-].
  apply evaluated_queries.
  - now apply impact_of_value.
  - destruct Hwf as (_ & Hb & _). lia.
Qed.

Lemma calculate_states_unfold (self : hysteresis_network)
    (solution : solve_type) (t step int_step : Q) :
  _calculate_states has_connection odeint solution t step int_step self
  = calculate_states_in has_connection odeint (seq 0 (_num_osc self))
      solution t step int_step self.
Proof. reflexivity. Qed.

Lemma seq_bounded (n : nat) : Forall (fun i => (i < n)%nat) (seq 0 n).
Proof. apply Forall_forall. intros i Hi. apply elem_of_seq in Hi. lia. Qed.


End Dynamics.

(** ** Order independence of the macro step *)

Section OrderIndependence.

Variable has_connection : nat -> nat -> bool.
Variable odeint : Q -> list Q -> integrator.

Lemma same_outcome_refl (r : result (list Q) * list Q) : same_outcome r r.
Proof. unfold same_outcome. now destruct (fst r). Qed.

Lemma same_outcome_trans (r1 r2 r3 : result (list Q) * list Q) :
  same_outcome r1 r2 -> same_outcome r2 r3 -> same_outcome r1 r3.
Proof.
  unfold same_outcome.
  destruct (fst r1), (fst r2), (fst r3); try tauto; try congruence.
  intros [-> ->] [-> ->]. now split.
Qed.

(** Under the constructor's shape the integrator call of an oscillator
    fails only where [numpy.arange] does, for every oscillator alike. *)
Lemma oscillator_plan_arange (self : hysteresis_network)
    (t step int_step : Q) (index : nat) :
  well_formed self -> (index < _num_osc self)%nat ->
  match arange (t - step) t int_step with
  | inl e => oscillator_plan odeint self t step int_step index = inl e
  | inr ts =>
      exists y0, _states self !! index = Some y0 /\
        oscillator_plan odeint self t step int_step index
        = inr (odeint y0 ts)
  end.
Proof.
  intros (Hs & _) Hi. unfold oscillator_plan.
  destruct (getitem_lt (_states self) index) as (y0 & Hy0 & ->); [lia|].
  simpl. destruct (arange (t - step) t int_step) as [e|ts]; [reflexivity|].
  now exists y0.
Qed.

Lemma step_loop_swap (self : hysteresis_network) (t step int_step : Q)
    (x y : nat) (order : list nat) (next_states buf : list Q) :
  well_formed self ->
  (x < _num_osc self)%nat -> (y < _num_osc self)%nat -> x <> y ->
  same_outcome
    (step_loop has_connection odeint self t step int_step (y :: x :: order)
       next_states buf)
    (step_loop has_connection odeint self t step int_step (x :: y :: order)
       next_states buf).
Proof.
  intros Hwf Hx Hy Hxy. cbn [step_loop].
  pose proof (oscillator_plan_arange self t step int_step x Hwf Hx) as Hpx.
  pose proof (oscillator_plan_arange self t step int_step y Hwf Hy) as Hpy.
  destruct (arange (t - step) t int_step) as [e|ts].
  - rewrite Hpx, Hpy. reflexivity.
  - destruct Hpx as (x0 & _ & ->). destruct Hpy as (y0 & _ & ->).
    destruct (last_value (trajectory_of
                (relaxation (impact_value has_connection self y))
                (odeint y0 ts))) as [ey|vy] eqn:Hvy;
      destruct (last_value (trajectory_of
                (relaxation (impact_value has_connection self x))
                (odeint x0 ts))) as [ex|vx] eqn:Hvx;
      try (apply last_value_error in Hvy; subst ey);
      try (apply last_value_error in Hvx; subst ex);
      try reflexivity.
    rewrite (list_insert_insert_ne next_states x y vx vy Hxy).
    rewrite (list_alter_alter_ne _ _ buf x y Hxy).
    apply same_outcome_refl.
Qed.

Lemma step_loop_skip (self : hysteresis_network) (t step int_step : Q)
    (x : nat) (order1 order2 : list nat) (next_states buf : list Q) :
  (forall next_states' buf',
     same_outcome
       (step_loop has_connection odeint self t step int_step order1
          next_states' buf')
       (step_loop has_connection odeint self t step int_step order2
          next_states' buf')) ->
  same_outcome
    (step_loop has_connection odeint self t step int_step (x :: order1)
       next_states buf)
    (step_loop has_connection odeint self t step int_step (x :: order2)
       next_states buf).
Proof.
  intros IH. cbn [step_loop].
  destruct (oscillator_plan odeint self t step int_step x) as [e|p];
    [reflexivity|].
  destruct (last_value _) as [e|v]; [reflexivity | apply IH].
Qed.

(** The loop of the macro step gives the same outcome for every order of
    the same oscillators. *)
Lemma step_loop_permutation (self : hysteresis_network)
    (t step int_step : Q) (order1 order2 : list nat) :
  well_formed self ->
  order1 ≡ₚ order2 ->
  NoDup order1 ->
  Forall (fun i => (i < _num_osc self)%nat) order1 ->
  forall next_states buf,
    same_outcome
      (step_loop has_connection odeint self t step int_step order1
         next_states buf)
      (step_loop has_connection odeint self t step int_step order2
         next_states buf).
Proof.
  intros Hwf Hperm.
  induction Hperm as [|x l1 l2 Hperm IH|x y l|l1 l2 l3 H12 IH12 H23 IH23];
    intros Hnd Hlt next_states buf.
  - apply same_outcome_refl.
  - apply NoDup_cons in Hnd as [_ Hnd].
    inversion Hlt as [|? ? _ Hlt']; subst.
    apply step_loop_skip. intros. now apply IH.
  - apply NoDup_cons in Hnd as [Hy Hnd].
    inversion Hlt as [|? ? Hylt Hlt']; subst.
    inversion Hlt' as [|? ? Hxlt _]; subst.
    apply step_loop_swap; try assumption.
    intros ->. apply Hy. now left.
  - eapply same_outcome_trans.
    + now apply IH12.
    + apply IH23.
      * now rewrite <- H12.
      * now rewrite <- H12.
Qed.

(** C3: one macro step gives the same new states and the same outputs
    whatever the order in which the oscillators are integrated: the
    returned states (or the exception), the states and the outputs
    fields agree with those of the source's order, and when the step
    returns the buffer agrees too. *)
Theorem macro_step_order_independent (self : hysteresis_network)
    (order : list nat) (solution : solve_type) (t step int_step : Q) :
  well_formed self ->
  order ≡ₚ seq 0 (_num_osc self) ->
  let r1 := calculate_states_in has_connection odeint order solution t step
              int_step self in
  let r2 := _calculate_states has_connection odeint solution t step int_step
              self in
  fst r1 = fst r2 /\
  _states (snd r1) = _states (snd r2) /\
  _outputs (snd r1) = _outputs (snd r2) /\
  (forall next_states, fst r2 = inr next_states -> snd r1 = snd r2).
Proof.
  intros Hwf Hperm r1 r2. subst r1 r2.
  assert (Hnd : NoDup order) by (rewrite Hperm; apply NoDup_seq).
  assert (Hlt : Forall (fun i => (i < _num_osc self)%nat) order).
  { rewrite Hperm. apply Forall_forall. intros i Hi.
    apply elem_of_seq in Hi. lia. }
  rewrite calculate_states_unfold.
  rewrite !calculate_states_in_run; try assumption;
    [| apply Forall_forall; intros i Hi; apply elem_of_seq in Hi; lia].
  pose proof (step_loop_permutation self t step int_step order
                (seq 0 (_num_osc self)) Hwf Hperm Hnd Hlt
                (replicate (_num_osc self) 0) (_outputs_buffer self)) as Hsame.
  unfold same_outcome in Hsame.
  destruct (step_loop has_connection odeint self t step int_step order
              (replicate (_num_osc self) 0) (_outputs_buffer self))
    as [[e1|n1] b1];
    destruct (step_loop has_connection odeint self t step int_step
                (seq 0 (_num_osc self)) (replicate (_num_osc self) 0)
                (_outputs_buffer self)) as [[e2|n2] b2];
    simpl in Hsame; try contradiction.
  - subst e2. simpl. repeat split. discriminate.
  - destruct Hsame as [-> ->]. simpl. repeat split.
Qed.

End OrderIndependence.

(** ** Outputs stay in the discrete set *)

Section Invariant.

Variable P : hysteresis_network -> Prop.

Lemma preserves_ret {A} (a : A) : preserves P (ret a).
Proof. now intros self H. Qed.

Lemma preserves_raise {A} (e : exn) : preserves P (@raise A e).
Proof. now intros self H. Qed.

Lemma preserves_lift {A} (r : result A) : preserves P (lift r).
Proof. now intros self H. Qed.

Lemma preserves_get : preserves P get.
Proof. now intros self H. Qed.

Lemma preserves_bind {A B} (m : M A) (f : A -> M B) :
  preserves P m -> (forall a, preserves P (f a)) -> preserves P (bind m f).
Proof.
  intros Hm Hf self H. unfold bind. specialize (Hm self H).
  destruct (m self) as [[e|a] self']; simpl in *.
  - exact Hm.
  - now apply Hf.
Qed.

(** A computation that reads the fields before it goes on. *)
Lemma preserves_get_bind {A} (f : hysteresis_network -> M A) :
  (forall self, P self -> P (snd (f self self))) ->
  preserves P (bind get f).
Proof. intros Hf self H. unfold bind, get. now apply Hf. Qed.

Lemma preserves_for_loop {I A} (body : A -> I -> M A) :
  (forall acc x, preserves P (body acc x)) ->
  forall xs acc, preserves P (for_loop body xs acc).
Proof.
  intros Hbody. induction xs as [|x xs IH]; intros acc.
  - apply preserves_ret.
  - cbn [for_loop]. apply preserves_bind; [apply Hbody | apply IH].
Qed.

End Invariant.

Section Bipolar.

Variable has_connection : nat -> nat -> bool.
Variable odeint : Q -> list Q -> integrator.

Lemma latch_if_bipolar (cond : bool) (index : nat) (v : Q) :
  bipolar v -> preserves bipolar_fields (latch_if cond index v).
Proof.
  intros Hv. unfold latch_if. destruct cond; [|apply preserves_ret].
  intros self [Ho Hb]. unfold bind, get, lift, setitem.
  destruct (decide (index < length (_outputs_buffer self))%nat); simpl.
  - split; [exact Ho | now apply Forall_insert].
  - now split.
Qed.

Lemma neuron_states_bipolar (xi t : Q) (index : nat) :
  preserves bipolar_fields (neuron_states has_connection xi t index).
Proof.
  unfold neuron_states.
  apply preserves_bind; [apply preserves_get | intros self].
  apply preserves_bind; [apply preserves_lift | intros impact].
  apply preserves_bind; [apply latch_if_bipolar; now left | intros _].
  apply preserves_bind; [apply latch_if_bipolar; now right | intros _].
  apply preserves_ret.
Qed.

Lemma integrate_bipolar (index : nat) :
  forall p : integrator,
    preserves bipolar_fields (integrate has_connection p index).
Proof.
  induction p as [values | y t k IH]; cbn [integrate].
  - apply preserves_ret.
  - apply preserves_bind; [apply neuron_states_bipolar | exact IH].
Qed.

Lemma integrate_oscillator_bipolar (t step int_step : Q)
    (next_states : list Q) (index : nat) :
  preserves bipolar_fields
    (integrate_oscillator has_connection odeint t step int_step next_states
       index).
Proof.
  unfold integrate_oscillator.
  apply preserves_bind; [apply preserves_get | intros self].
  apply preserves_bind; [apply preserves_lift | intros y0].
  apply preserves_bind; [apply preserves_lift | intros ts].
  apply preserves_bind; [apply integrate_bipolar | intros values].
  apply preserves_bind; [apply preserves_lift | intros v].
  apply preserves_lift.
Qed.

Lemma calculate_states_in_bipolar (order : list nat) (solution : solve_type)
    (t step int_step : Q) :
  preserves bipolar_fields
    (calculate_states_in has_connection odeint order solution t step
       int_step).
Proof.
  unfold calculate_states_in.
  apply preserves_bind; [apply preserves_get | intros self].
  apply preserves_bind.
  - apply preserves_for_loop. intros acc x.
    apply integrate_oscillator_bipolar.
  - intros next_states. apply preserves_get_bind.
    intros self' [Ho Hb]. simpl. now split.
Qed.

Lemma calculate_states_bipolar (solution : solve_type) (t step int_step : Q) :
  preserves bipolar_fields
    (_calculate_states has_connection odeint solution t step int_step).
Proof.
  unfold _calculate_states. apply preserves_get_bind. intros self H.
  now apply calculate_states_in_bipolar.
Qed.

Lemma simulate_step_bipolar (solution : solve_type) (collect_dynamic : bool)
    (step int_step : Q) (dyn : dynamic) (t : Q) :
  preserves bipolar_fields
    (simulate_step has_connection odeint solution collect_dynamic step
       int_step dyn t).
Proof.
  unfold simulate_step.
  apply preserves_bind; [apply calculate_states_bipolar | intros next_states].
  apply preserves_get_bind. intros self [Ho Hb].
  unfold bind, put. destruct collect_dynamic; simpl.
  - unfold lift.
    destruct (state_append (snd dyn) next_states); simpl; [now split|].
    destruct (time_append (fst dyn) t); simpl; now split.
  - now split.
Qed.

(** C9: when the outputs and the buffer hold only -1 and +1, they still do
    after every macro step of a simulation: after one macro step, after
    the macro steps of any sequence of time points (so after every prefix
    of a run), and after [simulate_static] and [simulate], whether they
    return or raise. *)
Theorem outputs_stay_bipolar (self : hysteresis_network) :
  bipolar_fields self ->
  (forall solution t step int_step,
     bipolar_fields
       (snd (_calculate_states has_connection odeint solution t step
               int_step self))) /\
  (forall solution collect_dynamic step int_step ts dyn,
     bipolar_fields
       (snd (for_loop
               (simulate_step has_connection odeint solution
                  collect_dynamic step int_step) ts dyn self))) /\
  (forall steps time solution collect_dynamic,
     bipolar_fields
       (snd (simulate_static has_connection odeint steps time solution
               collect_dynamic self)) /\
     bipolar_fields
       (snd (simulate has_connection odeint steps time solution
               collect_dynamic self))).
Proof.
  intros H. split; [|split].
  - intros. now apply calculate_states_bipolar.
  - intros. apply preserves_for_loop; [|exact H].
    intros acc x. apply simulate_step_bipolar.
  - intros steps time solution collect_dynamic.
    assert (Hs : preserves bipolar_fields
                   (simulate_static has_connection odeint steps time solution
                      collect_dynamic)).
    { unfold simulate_static.
      destruct (solve_type_eqb solution FAST); [apply preserves_raise|].
      destruct (solve_type_eqb solution RKF45); [apply preserves_raise|].
      apply preserves_bind; [apply preserves_get | intros self0].
      apply preserves_bind; [apply preserves_lift | intros step].
      apply preserves_bind; [apply preserves_lift | intros ts].
      apply preserves_for_loop. intros acc x. apply simulate_step_bipolar. }
    split; apply Hs; exact H.
Qed.

(** The setter of [outputs] makes the buffer a copy of the outputs. *)
Lemma outputs_setter_synced (values : list Q) (self : hysteresis_network) :
  synced (snd (outputs_setter values self)) /\
  _outputs (snd (outputs_setter values self)) = values.
Proof. now split. Qed.

(** C8: with either rejected method selector [simulate_static] and
    [simulate] raise the configuration error at once, and the fields of the
    network are as they were. *)
Theorem rejected_methods_fail (self : hysteresis_network) (steps : Z)
    (time : Q) (collect_dynamic : bool) :
  simulate_static has_connection odeint steps time FAST collect_dynamic self
  = (inl (NameError
       "Solver FAST is not support due to low accuracy that leads to huge error."),
     self) /\
  simulate_static has_connection odeint steps time RKF45 collect_dynamic self
  = (inl (NameError "Solver RKF45 is not support in python version."),
     self) /\
  simulate has_connection odeint steps time FAST collect_dynamic self
  = (inl (NameError
       "Solver FAST is not support due to low accuracy that leads to huge error."),
     self) /\
  simulate has_connection odeint steps time RKF45 collect_dynamic self
  = (inl (NameError "Solver RKF45 is not support in python version."),
     self).
Proof. repeat split. Qed.

End Bipolar.

(** ** The simulation driver *)

Section Driver.

Variable has_connection : nat -> nat -> bool.
Variable odeint : Q -> list Q -> integrator.

Lemma inject_Z_nonzero (z : Z) : z <> 0%Z -> ~ inject_Z z == 0.
Proof. unfold Qeq. simpl. lia. Qed.

Lemma arange_points (start stop step : Q) (n : Z) :
  ~ step == 0 -> (stop - start) / step == inject_Z n ->
  arange start stop step = inr (time_points start step (Z.to_nat n)).
Proof.
  intros Hstep Hn. unfold arange.
  destruct (Qeq_bool step 0) eqn:E.
  - apply Qeq_bool_iff in E. contradiction.
  - rewrite Hn, Qceiling_Z. reflexivity.
Qed.

(** The time points handed to the integrator in a macro step: ten of
    them, from [t - step] in steps of [step / 10]. *)
Lemma arange_substep (t step : Q) :
  ~ step == 0 ->
  arange (t - step) t (step / 10)
  = inr (time_points (t - step) (step / 10) 10).
Proof.
  intros Hstep. apply (arange_points _ _ _ 10).
  - intros H. apply Hstep. rewrite <- (Qmult_div_r step 10) by discriminate.
    rewrite H. ring.
  - field. exact Hstep.
Qed.

(** The time points of the macro steps: [steps] of them. *)
Lemma arange_macro_steps (time : Q) (steps : Z) :
  (0 < steps)%Z -> ~ time == 0 ->
  arange (time / inject_Z steps) (time + time / inject_Z steps)
         (time / inject_Z steps)
  = inr (time_points (time / inject_Z steps) (time / inject_Z steps)
           (Z.to_nat steps)).
Proof.
  intros Hsteps Htime.
  assert (Hs : ~ inject_Z steps == 0) by (apply inject_Z_nonzero; lia).
  apply arange_points.
  - intros H. apply Htime.
    rewrite <- (Qmult_div_r time (inject_Z steps)) by exact Hs.
    rewrite H. ring.
  - field. split; assumption.
Qed.

Lemma trajectory_length (d : Q -> Q) (n : nat) :
  forall p : integrator,
    returns_length n p -> length (trajectory_of d p) = n.
Proof.
  induction p as [values | y t k IH]; simpl; intros H.
  - exact H.
  - apply IH, H.
Qed.

Hypothesis odeint_shape :
  forall y0 ts, returns_length (length ts) (odeint y0 ts).

(** With time points to integrate over, the loop over the oscillators
    returns. *)
Lemma step_loop_returns (self : hysteresis_network) (t step int_step : Q)
    (ts : list Q) :
  well_formed self ->
  arange (t - step) t int_step = inr ts -> (0 < length ts)%nat ->
  forall (order : list nat) (next_states buf : list Q),
    Forall (fun i => (i < _num_osc self)%nat) order ->
    exists next_states' buf',
      step_loop has_connection odeint self t step int_step order
        next_states buf = (inr next_states', buf').
Proof.
  intros Hwf Hts Hlen. induction order as [|i order IH];
    intros next_states buf Horder.
  - now exists next_states, buf.
  - inversion Horder as [|? ? Hi Horder']; subst. cbn [step_loop].
    pose proof (oscillator_plan_arange odeint self t step int_step i Hwf Hi)
      as Hplan.
    rewrite Hts in Hplan. destruct Hplan as (y0 & _ & ->).
    destruct (last_value_nonempty
                (trajectory_of
                   (relaxation (impact_value has_connection self i))
                   (odeint y0 ts))) as [v ->].
    + rewrite (trajectory_length _ (length ts)); [exact Hlen|].
      apply odeint_shape.
    + now apply IH.
Qed.

(** A macro step of a non-zero duration returns, and leaves the network
    in the constructor's shape once the new states are assigned. *)
Lemma calculate_states_returns (self : hysteresis_network)
    (solution : solve_type) (t step : Q) :
  well_formed self -> ~ step == 0 ->
  exists next_states self',
    _calculate_states has_connection odeint solution t step (step / 10) self
    = (inr next_states, self') /\
    well_formed (set_states next_states self').
Proof.
  intros Hwf Hstep. rewrite calculate_states_unfold.
  rewrite calculate_states_in_run by (try apply seq_bounded; assumption).
  destruct (step_loop_returns self t step (step / 10) _ Hwf
              (arange_substep t step Hstep)
              ltac:(unfold time_points;
                    rewrite length_map, length_seq; lia)
              (seq 0 (_num_osc self)) (replicate (_num_osc self) 0)
              (_outputs_buffer self) (seq_bounded _))
    as (next_states & buf & Hloop).
  pose proof (step_loop_length has_connection odeint self t step (step / 10)
                (seq 0 (_num_osc self)) (replicate (_num_osc self) 0)
                (_outputs_buffer self)) as [Hbuf Hnext].
  rewrite Hloop in *. simpl in Hbuf.
  specialize (Hnext next_states eq_refl). rewrite length_replicate in Hnext.
  exists next_states. eexists. split; [reflexivity|].
  destruct Hwf as (Hs & Hb & Ho & Hw & Hrows).
  unfold well_formed. simpl. repeat split; try assumption; lia.
Qed.

Lemma final_dynamic_cons (d0 : dynamic) (t : Q) (s : list Q) (ts : list Q)
    (ss : list (list Q)) :
  length ss = length ts ->
  final_dynamic (TimeLast t, StateLast s) ts ss
  = final_dynamic d0 (t :: ts) (s :: ss).
Proof.
  unfold final_dynamic. intros Hlen.
  destruct ts as [|t' ts], ss as [|s' ss]; try discriminate Hlen;
    [reflexivity|].
  rewrite !last_cons_cons.
  destruct (last (t' :: ts)) eqn:Ht;
    [|rewrite last_None in Ht; discriminate].
  destruct (last (s' :: ss)) eqn:Hs;
    [reflexivity | rewrite last_None in Hs; discriminate].
Qed.

Lemma simulate_step_recording (solution : solve_type) (step int_step : Q)
    (tl : list Q) (sl : list (list Q)) (t : Q)
    (self self1 : hysteresis_network) (next_states : list Q) :
  _calculate_states has_connection odeint solution t step int_step self
  = (inr next_states, self1) ->
  simulate_step has_connection odeint solution true step int_step
    (TimeList tl, StateList sl) t self
  = (inr (TimeList (tl ++ [t]), StateList (sl ++ [next_states])),
     set_states next_states self1).
Proof.
  intros Hcalc. unfold simulate_step, bind. now rewrite Hcalc.
Qed.

Lemma simulate_step_last (solution : solve_type) (step int_step : Q)
    (d0 : dynamic) (t : Q) (self self1 : hysteresis_network)
    (next_states : list Q) :
  _calculate_states has_connection odeint solution t step int_step self
  = (inr next_states, self1) ->
  simulate_step has_connection odeint solution false step int_step d0 t self
  = (inr (TimeLast t, StateLast next_states), set_states next_states self1).
Proof.
  intros Hcalc. unfold simulate_step, bind. now rewrite Hcalc.
Qed.

(** The loop over the macro steps, with and without recording, in
    lockstep. *)
Lemma simulate_loop (solution : solve_type) (step : Q) :
  ~ step == 0 ->
  forall (ts : list Q) (self : hysteresis_network) (tl : list Q)
         (sl : list (list Q)) (d0 : dynamic),
    well_formed self ->
    exists ss self',
      length ss = length ts /\
      for_loop (simulate_step has_connection odeint solution true step
                  (step / 10)) ts (TimeList tl, StateList sl) self
      = (inr (TimeList (tl ++ ts), StateList (sl ++ ss)), self') /\
      for_loop (simulate_step has_connection odeint solution false step
                  (step / 10)) ts d0 self
      = (inr (final_dynamic d0 ts ss), self').
Proof.
  intros Hstep. induction ts as [|t ts IH]; intros self tl sl d0 Hwf.
  - exists [], self. rewrite !app_nil_r. now repeat split.
  - destruct (calculate_states_returns self solution t step Hwf Hstep)
      as (next_states & self1 & Hcalc & Hwf1).
    destruct (IH (set_states next_states self1) (tl ++ [t])
                 (sl ++ [next_states]) (TimeLast t, StateLast next_states)
                 Hwf1) as (ss & self' & Hlen & Htrue & Hfalse).
    exists (next_states :: ss), self'. split; [simpl; lia|]. split.
    + cbn [for_loop]. unfold bind at 1.
      rewrite (simulate_step_recording _ _ _ _ _ _ _ _ _ Hcalc).
      rewrite Htrue. now rewrite <- !app_assoc.
    + cbn [for_loop]. unfold bind at 1.
      rewrite (simulate_step_last _ _ _ _ _ _ _ _ Hcalc).
      rewrite Hfalse. now rewrite (final_dynamic_cons d0).
Qed.

Lemma simulate_static_loop (steps : Z) (time : Q) (collect_dynamic : bool)
    (self : hysteresis_network) (ts : list Q) :
  steps <> 0%Z ->
  arange (time / inject_Z steps) (time + time / inject_Z steps)
         (time / inject_Z steps) = inr ts ->
  simulate_static has_connection odeint steps time RK4 collect_dynamic self
  = for_loop
      (simulate_step has_connection odeint RK4 collect_dynamic
         (time / inject_Z steps) (time / inject_Z steps / 10))
      ts
      (if collect_dynamic
       then (TimeList [0], StateList [_states self])
       else (TimeNone, StateNone))
      self.
Proof.
  intros Hsteps Hts. unfold simulate_static, truediv. simpl solve_type_eqb.
  cbv iota. destruct (Z.eqb_spec steps 0) as [?|_]; [contradiction|].
  unfold bind, get, lift. now rewrite Hts.
Qed.

(** From a network of the constructor's shape the two calls of
    [simulate] return, with the recorded lists and their last pair. *)
Lemma recording_returns (self : hysteresis_network) (steps : Z) (time : Q)
    (solution : solve_type) :
  well_formed self -> (0 < steps)%Z -> 0 < time ->
  solution <> FAST -> solution <> RKF45 ->
  exists ts ss t s self',
    simulate has_connection odeint steps time solution true self
    = (inr (TimeList ts, StateList ss), self') /\
    simulate has_connection odeint steps time solution false self
    = (inr (TimeLast t, StateLast s), self') /\
    length ts = S (Z.to_nat steps) /\
    length ss = S (Z.to_nat steps) /\
    ts !! 0%nat = Some 0 /\
    ss !! 0%nat = Some (_states self) /\
    last ts = Some t /\
    last ss = Some s.
Proof.
  intros Hwf Hsteps Htime Hfast Hrkf.
  assert (Ht0 : ~ time == 0).
  { intros H. rewrite H in Htime. now apply Qlt_irrefl in Htime. }
  assert (Hs0 : ~ inject_Z steps == 0) by (apply inject_Z_nonzero; lia).
  assert (Hstep : ~ time / inject_Z steps == 0).
  { intros H. apply Ht0.
    rewrite <- (Qmult_div_r time (inject_Z steps)) by exact Hs0.
    rewrite H. ring. }
  destruct solution; try contradiction. unfold simulate.
  assert (Hne : steps <> 0%Z) by lia.
  rewrite !(simulate_static_loop _ _ _ _ _ Hne
              (arange_macro_steps time steps Hsteps Ht0)).
  destruct (simulate_loop RK4 (time / inject_Z steps) Hstep
              (time_points (time / inject_Z steps) (time / inject_Z steps)
                 (Z.to_nat steps))
              self [0] [_states self] (TimeNone, StateNone) Hwf)
    as (ss & self' & Hlen & Htrue & Hfalse).
  assert (Hn : length (time_points (time / inject_Z steps)
                         (time / inject_Z steps) (Z.to_nat steps))
               = Z.to_nat steps).
  { unfold time_points. now rewrite length_map, length_seq. }
  assert (Hpos : (0 < Z.to_nat steps)%nat) by lia.
  rewrite Hn in Hlen.
  destruct (time_points (time / inject_Z steps) (time / inject_Z steps)
              (Z.to_nat steps)) as [|t0 tpoints] eqn:Hpoints;
    [simpl in Hn; lia|].
  destruct ss as [|s0 ss]; [simpl in Hlen; lia|].
  destruct (last (t0 :: tpoints)) as [t|] eqn:Hlt;
    [|rewrite last_None in Hlt; discriminate].
  destruct (last (s0 :: ss)) as [s|] eqn:Hls;
    [|rewrite last_None in Hls; discriminate].
  exists ([0] ++ t0 :: tpoints), ([_states self] ++ s0 :: ss), t, s, self'.
  split; [exact Htrue|]. split.
  { rewrite Hfalse. unfold final_dynamic. now rewrite Hlt, Hls. }
  repeat split.
  - simpl. simpl in Hn. lia.
  - simpl. simpl in Hlen. lia.
  - exact Hlt.
  - exact Hls.
Qed.

End Driver.

Section Recording.

Variable has_connection : nat -> nat -> bool.
Variable odeint : Q -> list Q -> integrator.

Lemma for_loop_cons {I A} (body : A -> I -> M A) (x : I) (xs : list I)
    (acc : A) (self : hysteresis_network) :
  for_loop body (x :: xs) acc self
  = match body acc x self with
    | (inr acc', self') => for_loop body xs acc' self'
    | (inl e, self') => (inl e, self')
    end.
Proof. reflexivity. Qed.

Lemma simulate_step_raises (solution : solve_type) (collect_dynamic : bool)
    (step int_step : Q) (dyn : dynamic) (t : Q)
    (self self1 : hysteresis_network) (e : exn) :
  _calculate_states has_connection odeint solution t step int_step self
  = (inl e, self1) ->
  simulate_step has_connection odeint solution collect_dynamic step int_step
    dyn t self
  = (inl e, self1).
Proof.
  intros Hcalc. unfold simulate_step, bind. now rewrite Hcalc.
Qed.

(** The loop over the macro steps with and without recording, from the
    same fields: the same fields afterwards, the same exception if one is
    raised, and otherwise the recorded lists and their last pair. *)
Lemma simulate_loop_lockstep (solution : solve_type) (step int_step : Q) :
  forall (ts : list Q) (self : hysteresis_network) (tl : list Q)
         (sl : list (list Q)) (d0 : dynamic),
    let r1 := for_loop (simulate_step has_connection odeint solution true
                          step int_step) ts (TimeList tl, StateList sl) self in
    let r2 := for_loop (simulate_step has_connection odeint solution false
                          step int_step) ts d0 self in
    snd r1 = snd r2 /\
    match fst r1, fst r2 with
    | inr d1, inr d2 =>
        exists ss, length ss = length ts /\
          d1 = (TimeList (tl ++ ts), StateList (sl ++ ss)) /\
          d2 = final_dynamic d0 ts ss
    | inl e1, inl e2 => e1 = e2
    | _, _ => False
    end.
Proof.
  induction ts as [|t ts IH]; intros self tl sl d0; cbv zeta.
  - simpl. split; [reflexivity|]. exists []. now rewrite !app_nil_r.
  - rewrite !for_loop_cons.
    destruct (_calculate_states has_connection odeint solution t step int_step
                self) as [[e|next_states] self1] eqn:Hcalc.
    + rewrite !(simulate_step_raises _ _ _ _ _ _ _ _ _ Hcalc). simpl.
      now split.
    + rewrite (simulate_step_recording _ _ _ _ _ _ _ _ _ _ _ Hcalc).
      rewrite (simulate_step_last _ _ _ _ _ d0 _ _ _ _ Hcalc).
      specialize (IH (set_states next_states self1) (tl ++ [t])
                     (sl ++ [next_states])
                     (TimeLast t, StateLast next_states)).
      cbv zeta in IH. simpl.
      destruct (for_loop
                  (simulate_step has_connection odeint solution true step
                     int_step) ts
                  (TimeList (tl ++ [t]), StateList (sl ++ [next_states]))
                  (set_states next_states self1)) as [[e1|d1] s1];
        destruct (for_loop
                    (simulate_step has_connection odeint solution false step
                       int_step) ts (TimeLast t, StateLast next_states)
                    (set_states next_states self1)) as [[e2|d2] s2];
        simpl in *; destruct IH as [Hsame Hres];
        (split; [exact Hsame|]); try exact Hres.
      destruct Hres as (ss & Hlen & -> & ->).
      exists (next_states :: ss). split; [simpl; lia|].
      rewrite <- !app_assoc. split; [reflexivity|].
      now apply final_dynamic_cons.
Qed.

(** In exact arithmetic, where [numpy.arange] yields exactly [steps] time
    points: the recording call returns [steps + 1] time points and state
    vectors, the first being time 0 and the initial states, the last being
    the pair the plain call returns.  The two calls leave the same fields
    and raise together; from a network of the constructor's shape, with an
    integrator that returns one value per time point, they return. *)
Lemma recording_toggle (self : hysteresis_network) (steps : Z) (time : Q)
    (solution : solve_type) :
  (0 < steps)%Z -> 0 < time ->
  solution <> FAST -> solution <> RKF45 ->
  let r1 := simulate has_connection odeint steps time solution true self in
  let r2 := simulate has_connection odeint steps time solution false self in
  snd r1 = snd r2 /\
  match fst r1, fst r2 with
  | inr d1, inr d2 => snapshots_match (Z.to_nat steps) (_states self) d1 d2
  | inl e1, inl e2 => e1 = e2
  | _, _ => False
  end /\
  (well_formed self ->
   (forall y0 ts, returns_length (length ts) (odeint y0 ts)) ->
   exists d1 d2, fst r1 = inr d1 /\ fst r2 = inr d2).
Proof.
  intros Hsteps Htime Hfast Hrkf r1 r2.
  assert (Hreturns :
    well_formed self ->
    (forall y0 ts, returns_length (length ts) (odeint y0 ts)) ->
    exists d1 d2, fst r1 = inr d1 /\ fst r2 = inr d2).
  { intros Hwf Hshape.
    destruct (recording_returns has_connection odeint Hshape self steps time
                solution Hwf Hsteps Htime Hfast Hrkf)
      as (ts & ss & t & s & self' & H1 & H2 & _).
    subst r1 r2. rewrite H1, H2. now eexists; eexists. }
  split; [|split; [|exact Hreturns]].
  - subst r1 r2. destruct solution; try contradiction. unfold simulate.
    assert (Ht0 : ~ time == 0).
    { intros H. rewrite H in Htime. now apply Qlt_irrefl in Htime. }
    assert (Hne : steps <> 0%Z) by lia.
    rewrite !(simulate_static_loop has_connection odeint _ _ _ _ _ Hne
                (arange_macro_steps time steps Hsteps Ht0)).
    apply simulate_loop_lockstep.
  - subst r1 r2. destruct solution; try contradiction. unfold simulate.
    assert (Ht0 : ~ time == 0).
    { intros H. rewrite H in Htime. now apply Qlt_irrefl in Htime. }
    assert (Hne : steps <> 0%Z) by lia.
    rewrite !(simulate_static_loop has_connection odeint _ _ _ _ _ Hne
                (arange_macro_steps time steps Hsteps Ht0)).
    pose proof (simulate_loop_lockstep RK4 (time / inject_Z steps)
                  (time / inject_Z steps / 10)
                  (time_points (time / inject_Z steps) (time / inject_Z steps)
                     (Z.to_nat steps))
                  self [0] [_states self] (TimeNone, StateNone)) as Hboth.
    cbv zeta in Hboth.
    destruct (for_loop
                (simulate_step has_connection odeint RK4 true
                   (time / inject_Z steps) (time / inject_Z steps / 10))
                (time_points (time / inject_Z steps) (time / inject_Z steps)
                   (Z.to_nat steps))
                (TimeList [0], StateList [_states self]) self)
      as [[e1|d1] s1];
      destruct (for_loop
                  (simulate_step has_connection odeint RK4 false
                     (time / inject_Z steps) (time / inject_Z steps / 10))
                  (time_points (time / inject_Z steps) (time / inject_Z steps)
                     (Z.to_nat steps))
                  (TimeNone, StateNone) self)
        as [[e2|d2] s2];
      cbn [fst snd] in *; destruct Hboth as [_ Hres]; try exact Hres.
    destruct Hres as (ss & Hlen & -> & ->).
    assert (Hn : length (time_points (time / inject_Z steps)
                           (time / inject_Z steps) (Z.to_nat steps))
                 = Z.to_nat steps).
    { unfold time_points. now rewrite length_map, length_seq. }
    assert (Hpos : (0 < Z.to_nat steps)%nat) by lia.
    rewrite Hn in Hlen.
    destruct (time_points (time / inject_Z steps) (time / inject_Z steps)
                (Z.to_nat steps)) as [|t0 tpoints] eqn:Hpoints;
      [simpl in Hn; lia|].
    destruct ss as [|s0 ss]; [simpl in Hlen; lia|].
    destruct (last (t0 :: tpoints)) as [t|] eqn:Hlt;
      [|rewrite last_None in Hlt; discriminate].
    destruct (last (s0 :: ss)) as [s|] eqn:Hls;
      [|rewrite last_None in Hls; discriminate].
    exists ([0] ++ t0 :: tpoints), ([_states self] ++ s0 :: ss), t, s.
    split; [reflexivity|]. split.
    { unfold final_dynamic. now rewrite Hlt, Hls. }
    repeat split.
    + simpl. simpl in Hn. lia.
    + simpl. simpl in Hlen. lia.
    + exact Hlt.
    + exact Hls.
Qed.

End Recording.

(** ** The time points of a macro step *)

(** The last of the time points handed to the integrator in the macro
    step ending at [t] is [t - step / 10]. *)
Lemma substep_last_point (t step : Q) :
  exists x,
    last (time_points (t - step) (step / 10) 10) = Some x /\
    x == t - step / 10.
Proof.
  eexists. split; [reflexivity|]. simpl. field.
Qed.

(** C7 (as the code behaves): in the macro step of [simulate_static] that
    ends at time 1 with duration 1, the integrator is given time points
    whose last is 9/10, and the state recorded for time 1 is the
    trajectory's value there. *)
Theorem last_time_point_before_step_end :
  exists t v self',
    simulate_static all_to_all echo_time_points 1 1 RK4 false
      (network_of (init 1 (-4) (-1)))
    = (inr (TimeLast t, StateLast [v]), self') /\
    t == 1 /\ v == 9 # 10 /\ ~ v == t.
Proof.
  eexists. eexists. eexists. split; [vm_compute; reflexivity|].
  repeat split. discriminate.
Qed.

(** ** The ensemble allocator *)

Section Allocator.

Variable states : list Q.
Variable tolerance : Q.

Lemma tolerance_test_abs (si sm : Q) :
  Qltb si (sm + tolerance) && Qltb (sm - tolerance) si
  = Qltb (Qabs (si - sm)) tolerance.
Proof.
  apply eq_true_iff_eq.
  rewrite andb_true_iff, !Qltb_lt, Qabs_Qlt_condition.
  split; intros [H1 H2]; split; lra.
Qed.

Lemma in_tolerance_close (i m : nat) :
  (i < length states)%nat -> (m < length states)%nat ->
  in_tolerance states tolerance i m = inr (close_to states tolerance i m).
Proof.
  intros Hi Hm. unfold in_tolerance, close_to.
  destruct (getitem_lt states i Hi) as (si & Hsi & ->).
  destruct (getitem_lt states m Hm) as (sm & Hsm & ->).
  rewrite Hsi, Hsm. cbn [rbind]. f_equal. apply tolerance_test_abs.
Qed.

Lemma scan_cluster_exists (i : nat) (cluster : list nat) :
  (i < length states)%nat ->
  Forall (fun m => (m < length states)%nat) cluster ->
  scan_cluster states tolerance i cluster
  = inr (existsb (close_to states tolerance i) cluster).
Proof.
  intros Hi. induction cluster as [|m cluster IH]; intros Hc.
  - reflexivity.
  - inversion Hc as [|? ? Hm Hc']; subst. cbn [scan_cluster existsb].
    rewrite in_tolerance_close by assumption. simpl.
    destruct (close_to states tolerance i m); [reflexivity | now apply IH].
Qed.

Lemma scan_clusters_first_fit (i : nat) (clusters : list (list nat)) :
  (i < length states)%nat ->
  Forall (fun m => (m < length states)%nat) (concat clusters) ->
  scan_clusters states tolerance i clusters
  = inr (existsb (existsb (close_to states tolerance i)) clusters,
         if existsb (existsb (close_to states tolerance i)) clusters
         then first_fit_place states tolerance i clusters
         else clusters).
Proof.
  intros Hi. induction clusters as [|g clusters IH]; intros Hc.
  - reflexivity.
  - simpl in Hc. apply Forall_app in Hc as [Hg Hc].
    cbn [scan_clusters existsb first_fit_place].
    rewrite scan_cluster_exists by assumption. simpl.
    destruct (existsb (close_to states tolerance i) g); [reflexivity|].
    rewrite IH by exact Hc. simpl.
    now destruct (existsb (existsb (close_to states tolerance i)) clusters).
Qed.

Lemma first_fit_place_new (i : nat) (clusters : list (list nat)) :
  existsb (existsb (close_to states tolerance i)) clusters = false ->
  first_fit_place states tolerance i clusters = clusters ++ [[i]].
Proof.
  induction clusters as [|g clusters IH]; [reflexivity|].
  cbn [existsb first_fit_place]. intros H.
  apply orb_false_iff in H as [Hg Hrest]. rewrite Hg.
  now rewrite IH.
Qed.

(** One round of the outer loop places [i] by the first-fit rule. *)
Lemma allocate_step_first_fit (i : nat) (clusters : list (list nat)) :
  (i < length states)%nat ->
  Forall (fun m => (m < length states)%nat) (concat clusters) ->
  allocate_step states tolerance (inr clusters) i
  = inr (first_fit_place states tolerance i clusters).
Proof.
  intros Hi Hc. unfold allocate_step. simpl.
  rewrite scan_clusters_first_fit by assumption. simpl.
  destruct (existsb (existsb (close_to states tolerance i)) clusters) eqn:E;
    [reflexivity|].
  now rewrite first_fit_place_new.
Qed.

Lemma first_fit_place_members (i : nat) (clusters : list (list nat)) :
  concat (first_fit_place states tolerance i clusters)
  ≡ₚ concat clusters ++ [i].
Proof.
  induction clusters as [|g clusters IH]; cbn [first_fit_place].
  - reflexivity.
  - destruct (existsb (close_to states tolerance i) g); simpl.
    + rewrite <- !app_assoc. apply Permutation_app_head.
      apply Permutation_app_comm.
    + rewrite IH. now rewrite app_assoc.
Qed.

Lemma allocate_fold (n : nat) :
  length states = n ->
  forall (m k : nat) (clusters : list (list nat)),
    (k + m = n)%nat ->
    concat clusters ≡ₚ seq 0 k ->
    fold_left (allocate_step states tolerance) (seq k m) (inr clusters)
    = inr (fold_left
             (fun groups i => first_fit_place states tolerance i groups)
             (seq k m) clusters) /\
    concat (fold_left
              (fun groups i => first_fit_place states tolerance i groups)
              (seq k m) clusters) ≡ₚ seq 0 n.
Proof.
  intros Hn. induction m as [|m IH]; intros k clusters Hk Hperm.
  - simpl. split; [reflexivity|]. now replace n with k by lia.
  - cbn [seq fold_left].
    rewrite allocate_step_first_fit.
    + apply IH; [lia|].
      rewrite first_fit_place_members, Hperm, seq_S. reflexivity.
    + lia.
    + rewrite Hperm. apply Forall_forall. intros x Hx.
      apply elem_of_seq in Hx. lia.
Qed.

End Allocator.

(** In exact arithmetic the test of the code is [|s_i - s_m| < tolerance],
    and the loops are the first-fit rule for it. *)
Lemma allocate_sync_ensembles_first_fit (self : hysteresis_network)
    (tolerance : Q) :
  length (_states self) = _num_osc self ->
  allocate_sync_ensembles self tolerance
  = inr (first_fit (_states self) tolerance (_num_osc self)).
Proof.
  intros Hlen. unfold allocate_sync_ensembles, first_fit.
  destruct (_num_osc self) as [|n] eqn:Hn; [reflexivity|].
  apply (allocate_fold (_states self) tolerance (S n) Hlen); [lia | reflexivity].
Qed.

Lemma elem_of_concat (x : nat) (ls : list (list nat)) :
  x ∈ concat ls <-> exists l, x ∈ l /\ l ∈ ls.
Proof.
  induction ls as [|l0 ls IH]; simpl.
  - split; [intros H; inversion H | intros (l & _ & H); inversion H].
  - rewrite elem_of_app, IH. split.
    + intros [H | (l & Hx & Hl)].
      * exists l0. split; [exact H | left].
      * exists l. split; [exact Hx | now right].
    + intros (l & Hx & Hl). apply elem_of_cons in Hl as [-> | Hl].
      * now left.
      * right. now exists l.
Qed.

Lemma concat_group_unique (clusters : list (list nat)) (i : nat) :
  NoDup (concat clusters) ->
  forall (k k' : nat) (g g' : list nat),
    clusters !! k = Some g -> clusters !! k' = Some g' ->
    i ∈ g -> i ∈ g' -> k = k'.
Proof.
  induction clusters as [|g0 clusters IH]; intros Hnd k k' g g' Hk Hk' Hi Hi';
    [discriminate|].
  simpl in Hnd. apply NoDup_app in Hnd as (_ & Hdisj & Hrest).
  assert (Hin : forall j h, clusters !! j = Some h -> i ∈ h ->
                            i ∈ concat clusters).
  { intros j h Hj Hh. apply elem_of_concat. exists h. split; [exact Hh|].
    eapply list_elem_of_lookup_2. exact Hj. }
  destruct k as [|k], k' as [|k']; simpl in Hk, Hk'.
  - reflexivity.
  - injection Hk as <-. exfalso. apply (Hdisj i Hi). now apply (Hin k' g').
  - injection Hk' as <-. exfalso. apply (Hdisj i Hi'). now apply (Hin k g).
  - f_equal. now apply (IH Hrest k k' g g').
Qed.

(** C5: for a positive number of oscillators and as many states, the
    groups [allocate_sync_ensembles] returns partition the indices
    0 .. n-1: listed one group after the other they are a permutation of
    the indices, so every index is in a group, and in one group only. *)
Theorem allocate_partition (self : hysteresis_network) (tolerance : Q) :
  (0 < _num_osc self)%nat ->
  length (_states self) = _num_osc self ->
  exists clusters,
    allocate_sync_ensembles self tolerance = inr clusters /\
    concat clusters ≡ₚ seq 0 (_num_osc self) /\
    (forall i, (i < _num_osc self)%nat ->
       exists k g, clusters !! k = Some g /\ i ∈ g) /\
    (forall i k k' g g',
       clusters !! k = Some g -> clusters !! k' = Some g' ->
       i ∈ g -> i ∈ g' -> k = k').
Proof.
  intros Hpos Hlen. unfold allocate_sync_ensembles.
  destruct (_num_osc self) as [|n] eqn:Hn; [lia|].
  destruct (allocate_fold (_states self) tolerance (S n) Hlen (S n - 1) 1
              [[0%nat]] ltac:(lia) ltac:(reflexivity)) as [Hrun Hperm].
  eexists. split; [exact Hrun|]. split; [exact Hperm|]. split.
  - intros i Hi.
    assert (Hmem : i ∈ seq 0 (S n)) by (apply elem_of_seq; lia).
    rewrite <- Hperm in Hmem. apply elem_of_concat in Hmem as (g & Hg & Hgc).
    apply list_elem_of_lookup_1 in Hgc as [k Hk]. now exists k, g.
  - intros i. apply concat_group_unique.
    rewrite Hperm. apply NoDup_seq.
Qed.

(** ** The buffer between macro steps *)

(** A macro step that returns leaves the buffer equal to the outputs. *)
Lemma calculate_states_synced (has_connection : nat -> nat -> bool)
    (odeint : Q -> list Q -> integrator) (self : hysteresis_network)
    (solution : solve_type) (t step int_step : Q) (next_states : list Q) :
  fst (_calculate_states has_connection odeint solution t step int_step self)
  = inr next_states ->
  synced (snd (_calculate_states has_connection odeint solution t step
                 int_step self)).
Proof.
  unfold _calculate_states, calculate_states_in, bind, get, put, ret.
  destruct (for_loop _ _ _ self) as [[e|next] self']; simpl.
  - discriminate.
  - intros _. reflexivity.
Qed.

(** ** The properties on the example networks *)

Lemma euler_steps_shape (ts : list Q) :
  forall (acc : list Q) (y t : Q),
    returns_length (length acc + S (length ts)) (euler_steps acc y t ts).
Proof.
  induction ts as [|t' ts IH]; intros acc y t; simpl.
  - rewrite length_app. simpl. lia.
  - intros dy. specialize (IH (acc ++ [y]) (Qred (y + (t' - t) * dy)) t').
    rewrite length_app in IH. simpl in IH.
    now replace (length acc + S (S (length ts)))%nat
      with (length acc + 1 + S (length ts))%nat by lia.
Qed.

Lemma euler_shape (y0 : Q) (ts : list Q) :
  returns_length (length ts) (euler y0 ts).
Proof.
  destruct ts as [|t0 ts]; [reflexivity|].
  apply (euler_steps_shape ts [] y0 t0).
Qed.

Lemma neuron_states_derivative_witness :
  exists x buf,
    neuron_states all_to_all (3 # 2) 0 0%nat example_network
    = (inr x, set_outputs_buffer buf example_network) /\
    x == - (3 # 2) + impact_spec all_to_all example_network 0 /\
    forall buffer' : list Q,
      length buffer' = _num_osc example_network ->
      fst (neuron_states all_to_all (3 # 2) 0 0%nat
             (set_outputs_buffer buffer' example_network)) = inr x.
Proof.
  apply (neuron_states_derivative all_to_all example_network (3 # 2) 0 0%nat).
  - unfold well_formed. simpl. repeat split; repeat constructor.
  - simpl. lia.
Defined.


Lemma macro_step_order_independent_witness :
  fst (calculate_states_in all_to_all euler [1; 0]%nat RK4 (1 # 2) (1 # 2)
         (1 # 20) example_network)
  = fst (_calculate_states all_to_all euler RK4 (1 # 2) (1 # 2) (1 # 20)
           example_network).
Proof.
  apply (macro_step_order_independent all_to_all euler example_network
           [1; 0]%nat RK4 (1 # 2) (1 # 2) (1 # 20)).
  - unfold well_formed. simpl. repeat split; repeat constructor.
  - simpl. apply perm_swap.
Defined.

Lemma allocate_partition_witness :
  exists clusters,
    allocate_sync_ensembles chained_network (1 # 10) = inr clusters /\
    concat clusters ≡ₚ seq 0 5.
Proof.
  destruct (allocate_partition chained_network (1 # 10))
    as (clusters & Hrun & Hperm & _).
  - simpl. lia.
  - reflexivity.
  - exists clusters. split; [exact Hrun | exact Hperm].
Defined.

Lemma outputs_stay_bipolar_witness :
  bipolar_fields
    (snd (simulate all_to_all euler 2 1 RK4 true example_network)).
Proof.
  apply (outputs_stay_bipolar all_to_all euler example_network).
  split; simpl; repeat constructor; reflexivity.
Defined.

(** ** What one evaluation of the derivative function may change *)

Section Effect.

Variable has_connection : nat -> nat -> bool.
Variable odeint : Q -> list Q -> integrator.

Lemma thresholds_exclusive (xi : Q) :
  Qltb 1 xi = true -> Qltb xi (-1) = false.
Proof.
  intros H. apply Qltb_lt in H. apply Qltb_ge.
  apply Qlt_le_weak. now apply Qlt_trans with 1.
Qed.

(** X1: whatever the network and the arguments, [neuron_states] writes at
    most the buffer slot of its own oscillator: the other fields, the
    other slots and the length of the buffer are as before; and when it
    raises, nothing at all has been written. *)
Theorem neuron_states_effect (self : hysteresis_network) (xi t : Q)
    (index : nat) :
  let r := neuron_states has_connection xi t index self in
  (forall e, fst r = inl e -> snd r = self) /\
  exists buf,
    snd r = set_outputs_buffer buf self /\
    length buf = length (_outputs_buffer self) /\
    forall j : nat, j <> index -> buf !! j = _outputs_buffer self !! j.
Proof.
  cbv zeta. unfold neuron_states, bind, get, lift.
  destruct (impact_of has_connection self index) as [e|c].
  { simpl. split; [reflexivity|]. exists (_outputs_buffer self).
    now rewrite set_outputs_buffer_same. }
  unfold latch_if, bind, get, lift, put, ret, setitem.
  destruct (Qltb 1 xi) eqn:Hhi.
  - rewrite (thresholds_exclusive xi Hhi).
    destruct (decide (index < length (_outputs_buffer self))%nat); simpl.
    + split; [discriminate|]. eexists. split; [reflexivity|].
      split; [apply length_insert|].
      intros j Hj. now apply list_lookup_insert_ne.
    + split; [reflexivity|]. exists (_outputs_buffer self).
      now rewrite set_outputs_buffer_same.
  - destruct (Qltb xi (-1)) eqn:Hlo; simpl.
    + destruct (decide (index < length (_outputs_buffer self))%nat); simpl.
      * split; [discriminate|]. eexists. split; [reflexivity|].
        split; [apply length_insert|].
        intros j Hj. now apply list_lookup_insert_ne.
      * split; [reflexivity|]. exists (_outputs_buffer self).
        now rewrite set_outputs_buffer_same.
    + split; [discriminate|]. exists (_outputs_buffer self).
      now rewrite set_outputs_buffer_same.
Qed.

End Effect.

(** ** What a macro step may change *)

Section Frame.

Variable has_connection : nat -> nat -> bool.
Variable odeint : Q -> list Q -> integrator.

Lemma buffer_only_refl (self : hysteresis_network) : buffer_only self self.
Proof. split; [now rewrite set_outputs_buffer_same | reflexivity]. Qed.

Lemma neuron_states_buffer_only (self0 : hysteresis_network) (xi t : Q)
    (index : nat) :
  preserves (buffer_only self0) (neuron_states has_connection xi t index).
Proof.
  intros s [Hs Hlen].
  destruct (neuron_states_effect has_connection s xi t index)
    as (_ & buf & Hr & Hbuf & _).
  rewrite Hr. split; simpl.
  - rewrite Hs. reflexivity.
  - now rewrite Hbuf.
Qed.

Lemma integrate_buffer_only (self0 : hysteresis_network) (index : nat) :
  forall p : integrator,
    preserves (buffer_only self0) (integrate has_connection p index).
Proof.
  induction p as [values | y t k IH]; cbn [integrate].
  - apply preserves_ret.
  - apply preserves_bind; [apply neuron_states_buffer_only | exact IH].
Qed.

Lemma integrate_oscillator_buffer_only (self0 : hysteresis_network)
    (t step int_step : Q) (next_states : list Q) (index : nat) :
  preserves (buffer_only self0)
    (integrate_oscillator has_connection odeint t step int_step next_states
       index).
Proof.
  unfold integrate_oscillator.
  apply preserves_bind; [apply preserves_get | intros self].
  apply preserves_bind; [apply preserves_lift | intros y0].
  apply preserves_bind; [apply preserves_lift | intros ts].
  apply preserves_bind; [apply integrate_buffer_only | intros values].
  apply preserves_bind; [apply preserves_lift | intros v].
  apply preserves_lift.
Qed.

Lemma integrate_oscillator_length (t step int_step : Q)
    (next_states next_states' : list Q) (index : nat)
    (self self' : hysteresis_network) :
  integrate_oscillator has_connection odeint t step int_step next_states
    index self = (inr next_states', self') ->
  length next_states' = length next_states.
Proof.
  unfold integrate_oscillator, bind, get, lift.
  destruct (getitem (_states self) index) as [e|y0]; [discriminate|].
  destruct (arange (t - step) t int_step) as [e|ts]; [discriminate|].
  destruct (integrate has_connection (odeint y0 ts) index self)
    as [[e|values] s1]; [discriminate|].
  destruct (last_value values) as [e|v]; [discriminate|].
  unfold setitem. destruct (decide (index < length next_states)%nat);
    [|discriminate].
  intros [= <- _]. apply length_insert.
Qed.

Lemma oscillators_loop_length (t step int_step : Q) :
  forall (order : list nat) (next_states next_states' : list Q)
         (self self' : hysteresis_network),
    for_loop (integrate_oscillator has_connection odeint t step int_step)
      order next_states self = (inr next_states', self') ->
    length next_states' = length next_states.
Proof.
  induction order as [|index order IH];
    intros next_states next_states' self self'.
  - simpl. unfold ret. now intros [= <- _].
  - rewrite for_loop_cons.
    destruct (integrate_oscillator has_connection odeint t step int_step
                next_states index self) as [[e|next1] s1] eqn:Hone;
      [discriminate|].
    intros Hrest. rewrite (IH _ _ _ _ Hrest).
    now apply (integrate_oscillator_length _ _ _ _ _ _ _ _ Hone).
Qed.

(** The macro step in terms of its loop: the buffer is published when the
    loop returns, and not when it raises. *)
Lemma calculate_states_in_cases (order : list nat) (solution : solve_type)
    (t step int_step : Q) (self : hysteresis_network) :
  calculate_states_in has_connection odeint order solution t step int_step
    self
  = match for_loop (integrate_oscillator has_connection odeint t step
                      int_step) order (replicate (_num_osc self) 0) self with
    | (inr next_states, self') =>
        (inr next_states, set_outputs (_outputs_buffer self') self')
    | (inl e, self') => (inl e, self')
    end.
Proof.
  unfold calculate_states_in, bind, get, put, ret.
  now destruct (for_loop _ order (replicate (_num_osc self) 0) self)
    as [[e|next_states] self'].
Qed.

(** The frame of a macro step, for every order of the oscillators. *)
Lemma calculate_states_in_frame (order : list nat) (solution : solve_type)
    (t step int_step : Q) (self : hysteresis_network) :
  let r := calculate_states_in has_connection odeint order solution t step
             int_step self in
  _states (snd r) = _states self /\
  _weight (snd r) = _weight self /\
  _num_osc (snd r) = _num_osc self /\
  length (_outputs_buffer (snd r)) = length (_outputs_buffer self) /\
  match fst r with
  | inl _ => _outputs (snd r) = _outputs self
  | inr next_states =>
      _outputs (snd r) = _outputs_buffer (snd r) /\
      length next_states = _num_osc self
  end.
Proof.
  cbv zeta. rewrite calculate_states_in_cases.
  pose proof (preserves_for_loop (buffer_only self)
                (integrate_oscillator has_connection odeint t step int_step)
                (fun acc x =>
                   integrate_oscillator_buffer_only self t step int_step acc x)
                order (replicate (_num_osc self) 0) self
                (buffer_only_refl self)) as [Hs Hlen].
  pose proof (oscillators_loop_length t step int_step order
                (replicate (_num_osc self) 0)) as Hnext.
  destruct (for_loop _ order (replicate (_num_osc self) 0) self)
    as [[e|next_states] self'] eqn:Hloop; simpl in *.
  - rewrite Hs. simpl. repeat split. exact Hlen.
  - specialize (Hnext next_states self self' Hloop).
    rewrite length_replicate in Hnext.
    rewrite Hs. simpl. repeat split; assumption.
Qed.

(** X2: [_calculate_states] never assigns the states, the weights or the
    number of oscillators, and keeps the length of the buffer, for every
    network.  When it raises, the outputs are as before; when it returns,
    the outputs are the buffer and the returned list has [num_osc]
    entries. *)
Theorem calculate_states_frame (solution : solve_type) (t step int_step : Q)
    (self : hysteresis_network) :
  let r := _calculate_states has_connection odeint solution t step int_step
             self in
  _states (snd r) = _states self /\
  _weight (snd r) = _weight self /\
  _num_osc (snd r) = _num_osc self /\
  length (_outputs_buffer (snd r)) = length (_outputs_buffer self) /\
  match fst r with
  | inl _ => _outputs (snd r) = _outputs self
  | inr next_states =>
      _outputs (snd r) = _outputs_buffer (snd r) /\
      length next_states = _num_osc self
  end.
Proof.
  cbv zeta. rewrite calculate_states_unfold.
  apply calculate_states_in_frame.
Qed.

End Frame.

(** ** What a simulation keeps and returns *)

Section Simulation.

Variable has_connection : nat -> nat -> bool.
Variable odeint : Q -> list Q -> integrator.

(** One round of the loop of [simulate_static], by the outcome of its
    macro step. *)
Lemma simulate_step_cases (solution : solve_type) (collect_dynamic : bool)
    (step int_step : Q) (dyn : dynamic) (t : Q) (self : hysteresis_network) :
  simulate_step has_connection odeint solution collect_dynamic step int_step
    dyn t self
  = match _calculate_states has_connection odeint solution t step int_step
            self with
    | (inl e, self1) => (inl e, self1)
    | (inr next_states, self1) =>
        (if collect_dynamic then
           rbind (state_append (snd dyn) next_states) (fun dyn_state =>
             rbind (time_append (fst dyn) t) (fun dyn_time =>
               inr (dyn_time, dyn_state)))
         else inr (TimeLast t, StateLast next_states),
         set_states next_states self1)
    end.
Proof.
  unfold simulate_step, bind, get, put, lift, ret.
  destruct (_calculate_states has_connection odeint solution t step int_step
              self) as [[e|next_states] self1]; [reflexivity|].
  destruct collect_dynamic; [|reflexivity].
  destruct (state_append (snd dyn) next_states) as [e|ds]; [reflexivity|].
  simpl. now destruct (time_append (fst dyn) t).
Qed.

Lemma simulate_step_shape (solution : solve_type) (collect_dynamic : bool)
    (step int_step : Q) (dyn : dynamic) (t : Q) :
  preserves well_formed
    (simulate_step has_connection odeint solution collect_dynamic step
       int_step dyn t).
Proof.
  intros self (Hs & Hb & Ho & Hw & Hrows). rewrite simulate_step_cases.
  pose proof (calculate_states_frame has_connection odeint solution t step
                int_step self) as Hframe.
  cbv zeta in Hframe.
  destruct (_calculate_states has_connection odeint solution t step int_step
              self) as [[e|next_states] self1];
    simpl in Hframe; destruct Hframe as (Hs1 & Hw1 & Hn1 & Hb1 & Hout);
    unfold well_formed; simpl; rewrite ?Hs1, ?Hw1, ?Hn1, ?Hb1.
  - rewrite Hout. repeat split; assumption.
  - destruct Hout as [-> Hnext]. rewrite Hb1.
    repeat split; assumption.
Qed.

Lemma simulate_step_weights (w : list (list Q)) (n : nat)
    (solution : solve_type) (collect_dynamic : bool)
    (step int_step : Q) (dyn : dynamic) (t : Q) :
  preserves (fun s => _weight s = w /\ _num_osc s = n)
    (simulate_step has_connection odeint solution collect_dynamic step
       int_step dyn t).
Proof.
  intros self [Hw Hn]. rewrite simulate_step_cases.
  pose proof (calculate_states_frame has_connection odeint solution t step
                int_step self) as Hframe.
  cbv zeta in Hframe.
  destruct (_calculate_states has_connection odeint solution t step int_step
              self) as [[e|next_states] self1];
    simpl in Hframe; destruct Hframe as (_ & Hw1 & Hn1 & _);
    simpl; rewrite Hw1, Hn1; now split.
Qed.

Lemma simulate_static_preserves (P : hysteresis_network -> Prop) :
  (forall solution collect_dynamic step int_step dyn t,
     preserves P
       (simulate_step has_connection odeint solution collect_dynamic step
          int_step dyn t)) ->
  forall steps time solution collect_dynamic,
    preserves P
      (simulate_static has_connection odeint steps time solution
         collect_dynamic).
Proof.
  intros Hstep steps time solution collect_dynamic. unfold simulate_static.
  destruct (solve_type_eqb solution FAST); [apply preserves_raise|].
  destruct (solve_type_eqb solution RKF45); [apply preserves_raise|].
  apply preserves_bind; [apply preserves_get | intros self0].
  apply preserves_bind; [apply preserves_lift | intros step].
  apply preserves_bind; [apply preserves_lift | intros ts].
  apply preserves_for_loop. intros acc x. apply Hstep.
Qed.

(** X3: a simulation never changes the weights or the number of
    oscillators, and a network of the constructor's shape has that shape
    after [simulate_static], whether it returns or raises. *)
Theorem simulate_keeps_shape (steps : Z) (time : Q) (solution : solve_type)
    (collect_dynamic : bool) (self : hysteresis_network) :
  let r := simulate_static has_connection odeint steps time solution
             collect_dynamic self in
  _weight (snd r) = _weight self /\
  _num_osc (snd r) = _num_osc self /\
  (well_formed self -> well_formed (snd r)).
Proof.
  cbv zeta.
  pose proof (simulate_static_preserves
                (fun s => _weight s = _weight self /\
                          _num_osc s = _num_osc self)
                (simulate_step_weights (_weight self) (_num_osc self))
                steps time solution collect_dynamic self
                (conj eq_refl eq_refl)) as [Hw Hn].
  split; [exact Hw|]. split; [exact Hn|].
  apply (simulate_static_preserves well_formed simulate_step_shape).
Qed.

End Simulation.

Section Results.

Variable has_connection : nat -> nat -> bool.
Variable odeint : Q -> list Q -> integrator.

Lemma simulate_step_result (solution : solve_type) (collect_dynamic : bool)
    (step int_step : Q) (dyn dyn' : dynamic) (t : Q)
    (self self' : hysteresis_network) :
  dynamic_fits collect_dynamic dyn ->
  simulate_step has_connection odeint solution collect_dynamic step int_step
    dyn t self = (inr dyn', self') ->
  synced self' /\ ends_with_states dyn' self' /\
  dynamic_fits collect_dynamic dyn' /\
  (forall v, snd dyn' = StateLast v \/
             (exists ss, snd dyn' = StateList (ss ++ [v])) ->
             v = _states self' -> length v = _num_osc self) /\
  _num_osc self' = _num_osc self.
Proof.
  intros Hfit. rewrite simulate_step_cases.
  pose proof (calculate_states_frame has_connection odeint solution t step
                int_step self) as Hframe.
  cbv zeta in Hframe.
  destruct (_calculate_states has_connection odeint solution t step int_step
              self) as [[e|next_states] self1]; [discriminate|].
  simpl in Hframe. destruct Hframe as (_ & _ & Hn & _ & Hout & Hnext).
  destruct collect_dynamic.
  - destruct Hfit as (tl & sl & ->). simpl.
    intros [= <- <-]. unfold synced, ends_with_states. simpl.
    repeat split.
    + now rewrite Hout.
    + apply last_snoc.
    + now exists (tl ++ [t]), (sl ++ [next_states]).
    + intros v _ ->. exact Hnext.
    + exact Hn.
  - intros [= <- <-]. unfold synced, ends_with_states. simpl.
    repeat split.
    + now rewrite Hout.
    + intros v _ ->. exact Hnext.
    + exact Hn.
Qed.

Lemma simulate_loop_result (solution : solve_type) (collect_dynamic : bool)
    (step int_step : Q) :
  forall (ts : list Q) (dyn dyn' : dynamic) (self self' : hysteresis_network),
    ts <> [] ->
    dynamic_fits collect_dynamic dyn ->
    for_loop (simulate_step has_connection odeint solution collect_dynamic
                step int_step) ts dyn self = (inr dyn', self') ->
    synced self' /\ ends_with_states dyn' self' /\
    length (_states self') = _num_osc self'.
Proof.
  induction ts as [|t ts IH]; intros dyn dyn' self self' Hne Hfit;
    [contradiction|].
  rewrite for_loop_cons.
  destruct (simulate_step has_connection odeint solution collect_dynamic step
              int_step dyn t self) as [[e|dyn1] self1] eqn:Hstep;
    [discriminate|].
  destruct (simulate_step_result _ _ _ _ _ _ _ _ _ Hfit Hstep)
    as (Hsync & Hends & Hfit1 & Hlen & Hn).
  destruct ts as [|t' ts].
  - simpl. unfold ret. intros [= <- <-]. repeat split; try assumption.
    rewrite Hn. unfold ends_with_states in Hends.
    destruct (snd dyn1) as [|v|ss] eqn:Hd; [contradiction| |].
    + apply (Hlen (_states self1)); [left; now f_equal | reflexivity].
    + destruct ss as [|s0 ss _] using rev_ind; [discriminate|].
      rewrite last_snoc in Hends. injection Hends as ->.
      apply (Hlen (_states self1)); [right; now exists ss | reflexivity].
  - apply IH; [discriminate | exact Hfit1].
Qed.

(** X4: when [simulate_static] returns after at least one macro step, the
    network holds the last state vector it returned (the single one, or the
    last of the recorded ones), that vector has [num_osc] entries, and the
    buffer equals the outputs.  No assumption on the network or on the
    integrator. *)
Theorem simulate_final_state (steps : Z) (time : Q) (collect_dynamic : bool)
    (self self' : hysteresis_network) (d : dynamic) :
  (0 < steps)%Z -> 0 < time ->
  simulate_static has_connection odeint steps time RK4 collect_dynamic self
  = (inr d, self') ->
  synced self' /\ ends_with_states d self' /\
  length (_states self') = _num_osc self'.
Proof.
  intros Hsteps Htime.
  assert (Ht0 : ~ time == 0).
  { intros H. rewrite H in Htime. now apply Qlt_irrefl in Htime. }
  assert (Hne : steps <> 0%Z) by lia.
  rewrite (simulate_static_loop has_connection odeint _ _ _ _ _ Hne
             (arange_macro_steps time steps Hsteps Ht0)).
  apply simulate_loop_result.
  - intros H. apply (f_equal length) in H. unfold time_points in H.
    rewrite length_map, length_seq in H. simpl in H. lia.
  - destruct collect_dynamic; simpl; [|exact I].
    now exists [0], [_states self].
Qed.


End Results.

(** ** The threshold latch over a macro step *)

Section Latch.

Variable has_connection : nat -> nat -> bool.
Variable odeint : Q -> list Q -> integrator.

Lemma latch_all_app (xs ys : list Q) (v : Q) :
  latch_all (xs ++ ys) v = latch_all ys (latch_all xs v).
Proof. unfold latch_all. apply fold_left_app. Qed.

Lemma latch_all_dead_band (xs : list Q) (v : Q) :
  Forall (fun y => ~ 1 < y /\ ~ y < -1) xs -> latch_all xs v = v.
Proof.
  revert v. induction xs as [|x xs IH]; intros v Hxs; [reflexivity|].
  inversion Hxs as [|? ? [Hhi Hlo] Hxs']; subst.
  rewrite latch_all_cons, latch_value_between by assumption. now apply IH.
Qed.

Lemma step_loop_untouched (self : hysteresis_network) (t step int_step : Q)
    (index : nat) :
  forall (order : list nat) (next_states buf : list Q),
    index ∉ order ->
    snd (step_loop has_connection odeint self t step int_step order
           next_states buf) !! index = buf !! index.
Proof.
  induction order as [|j order IH]; intros next_states buf Hnot.
  - reflexivity.
  - apply not_elem_of_cons in Hnot as [Hne Hnot]. cbn [step_loop].
    destruct (oscillator_plan odeint self t step int_step j) as [e|p];
      [reflexivity|].
    destruct (last_value _) as [e|v]; simpl.
    + now apply list_lookup_alter_ne.
    + rewrite IH by exact Hnot. now apply list_lookup_alter_ne.
Qed.

(** When the loop returns, the buffer slot of an oscillator holds what the
    threshold tests of its own evaluations, in their order, leave in it. *)
Lemma step_loop_latched (self : hysteresis_network) (t step int_step : Q)
    (index : nat) (p : integrator) :
  oscillator_plan odeint self t step int_step index = inr p ->
  forall (order : list nat) (next_states next_states' buf buf' : list Q),
    NoDup order -> index ∈ order ->
    step_loop has_connection odeint self t step int_step order next_states buf
    = (inr next_states', buf') ->
    buf' !! index
    = latch_all
        (queries_of (relaxation (impact_value has_connection self index)) p)
      <$> buf !! index.
Proof.
  intros Hp. induction order as [|j order IH];
    intros next_states next_states' buf buf' Hnd Hin; [inversion Hin|].
  apply NoDup_cons in Hnd as [Hj Hnd]. cbn [step_loop].
  destruct (decide (j = index)) as [->|Hne].
  - rewrite Hp. destruct (last_value _) as [e|v]; [discriminate|].
    intros Hrest.
    pose proof (step_loop_untouched self t step int_step index order
                  (<[index:=v]> next_states)
                  (alter (latch_all (queries_of
                     (relaxation (impact_value has_connection self index)) p))
                     index buf) Hj) as Hslot.
    rewrite Hrest in Hslot. simpl in Hslot. rewrite Hslot.
    apply list_lookup_alter_eq.
  - apply elem_of_cons in Hin as [->|Hin]; [contradiction|].
    destruct (oscillator_plan odeint self t step int_step j) as [e|pj];
      [discriminate|].
    destruct (last_value _) as [e|v]; [discriminate|].
    intros Hrest. rewrite (IH _ _ _ _ Hnd Hin Hrest).
    now rewrite list_lookup_alter_ne.
Qed.

(** X8: in a macro step that returns, the output of an oscillator is
    decided by the last state value outside the dead band that its
    derivative function was evaluated at: the output is +1 after the step
    when that value is above 1, and -1 when it is below -1. *)
Theorem last_crossing_sets_output (self self' : hysteresis_network)
    (solution : solve_type) (t step int_step : Q) (index : nat)
    (next_states pre post : list Q) (x : Q) :
  well_formed self -> (index < _num_osc self)%nat ->
  _calculate_states has_connection odeint solution t step int_step self
  = (inr next_states, self') ->
  step_states has_connection odeint self t step int_step index
  = pre ++ x :: post ->
  Forall (fun y => ~ 1 < y /\ ~ y < -1) post ->
  (1 < x -> _outputs self' !! index = Some 1) /\
  (x < -1 -> _outputs self' !! index = Some (-1)).
Proof.
  intros Hwf Hi Hrun Hstates Hpost.
  rewrite calculate_states_unfold in Hrun.
  rewrite calculate_states_in_run in Hrun
    by (try apply seq_bounded; assumption).
  destruct (step_loop has_connection odeint self t step int_step
              (seq 0 (_num_osc self)) (replicate (_num_osc self) 0)
              (_outputs_buffer self)) as [[e|next] buf] eqn:Hloop;
    [discriminate|].
  injection Hrun as <- <-. simpl.
  destruct (oscillator_plan odeint self t step int_step index) as [e|p]
    eqn:Hp.
  { exfalso. revert Hp Hstates. unfold oscillator_plan, step_states, getitem.
    destruct (_states self !! index); simpl;
      [|intros _ H; now destruct pre].
    destruct (arange (t - step) t int_step); simpl;
      [intros _ H; now destruct pre | discriminate]. }
  rewrite (step_states_queries has_connection odeint self t step int_step
             index p Hwf Hi Hp) in Hstates.
  rewrite (step_loop_latched self t step int_step index p Hp _ _ _ _ _
             (NoDup_seq 0 (_num_osc self))
             ltac:(apply elem_of_seq; lia) Hloop).
  destruct (lookup_lt_is_Some_2 (_outputs_buffer self) index) as [v Hv].
  { destruct Hwf as (_ & Hb & _). lia. }
  rewrite Hv, Hstates. simpl.
  rewrite latch_all_app, latch_all_cons, latch_all_dead_band by exact Hpost.
  split; intros Hx; f_equal.
  - now apply latch_value_above.
  - now apply latch_value_below.
Qed.

End Latch.

(** ** The groups of the ensemble allocator *)

Section Groups.

Variable states : list Q.
Variable tolerance : Q.

(** Where the first-fit rule puts an index: at the end of the first group
    with a close member, or in a new last group when there is none. *)
Lemma first_fit_place_cases (i : nat) (groups : list (list nat)) :
  (existsb (existsb (close_to states tolerance i)) groups = false /\
   first_fit_place states tolerance i groups = groups ++ [[i]]) \/
  (exists pre g post,
     groups = pre ++ g :: post /\
     existsb (close_to states tolerance i) g = true /\
     first_fit_place states tolerance i groups = pre ++ (g ++ [i]) :: post).
Proof.
  induction groups as [|g groups IH]; cbn [first_fit_place existsb].
  - now left.
  - destruct (existsb (close_to states tolerance i) g) eqn:Hg.
    + right. now exists [], g, groups.
    + destruct IH as [[Hnone ->] | (pre & g' & post & -> & Hg' & ->)].
      * left. now rewrite Hnone.
      * right. now exists (g :: pre), g', post.
Qed.

(** An invariant of the outer loop holds for the groups it ends with. *)
Lemma first_fit_fold_invariant (Inv : nat -> list (list nat) -> Prop)
    (n : nat) :
  (forall k groups, (1 <= k < n)%nat -> Inv k groups ->
     Inv (S k) (first_fit_place states tolerance k groups)) ->
  forall (m k : nat) (groups : list (list nat)),
    (1 <= k)%nat -> (k + m = n)%nat -> Inv k groups ->
    Inv n (fold_left
             (fun groups i => first_fit_place states tolerance i groups)
             (seq k m) groups).
Proof.
  intros Hstep. induction m as [|m IH]; intros k groups Hk Hn Hinv.
  - simpl. now replace n with k by lia.
  - cbn [seq fold_left]. apply IH; [lia | lia |].
    apply Hstep; [lia | exact Hinv].
Qed.

Lemma first_fit_invariant (Inv : nat -> list (list nat) -> Prop) (n : nat) :
  (0 < n)%nat ->
  Inv 1%nat [[0%nat]] ->
  (forall k groups, (1 <= k < n)%nat -> Inv k groups ->
     Inv (S k) (first_fit_place states tolerance k groups)) ->
  Inv n (first_fit states tolerance n).
Proof.
  intros Hn H0 Hstep. unfold first_fit.
  apply (first_fit_fold_invariant Inv n Hstep (n - 1) 1); [lia | lia | exact H0].
Qed.

Lemma close_to_nonpositive (i m : nat) :
  tolerance <= 0 -> close_to states tolerance i m = false.
Proof.
  intros Htol. unfold close_to. apply Qltb_ge.
  apply Qle_trans with 0; [exact Htol | apply Qabs_nonneg].
Qed.

Lemma first_fit_nonpositive (n : nat) :
  (0 < n)%nat -> tolerance <= 0 ->
  first_fit states tolerance n = singletons n.
Proof.
  intros Hn Htol.
  apply (first_fit_invariant (fun k groups => groups = singletons k) n Hn).
  - reflexivity.
  - intros k groups _ ->.
    destruct (first_fit_place_cases k (singletons k))
      as [[_ ->] | (pre & g & post & _ & Hg & _)].
    + unfold singletons. now rewrite seq_S, map_app.
    + apply existsb_exists in Hg as (m & _ & Hm).
      now rewrite close_to_nonpositive in Hm.
Qed.

Lemma first_fit_order (n : nat) :
  (0 < n)%nat ->
  Forall (fun g => g <> [] /\ StronglySorted lt g)
         (first_fit states tolerance n) /\
  StronglySorted lt (map (hd 0%nat) (first_fit states tolerance n)) /\
  hd 0%nat <$> head (first_fit states tolerance n) = Some 0%nat.
Proof.
  intros Hn.
  apply (first_fit_invariant
           (fun k groups =>
              (Forall (fun g => g <> [] /\ StronglySorted lt g) groups /\
               StronglySorted lt (map (hd 0%nat) groups) /\
               hd 0%nat <$> head groups = Some 0%nat) /\
              Forall (fun m => (m < k)%nat) (concat groups)) n Hn).
  - split; [|repeat constructor].
    repeat split; repeat constructor. discriminate.
  - intros k groups Hk [(Hall & Hheads & Hzero) Hlt].
    assert (Hlt' : Forall (fun m => (m < S k)%nat)
                     (concat (first_fit_place states tolerance k groups))).
    { rewrite first_fit_place_members. apply Forall_app. split.
      - eapply Forall_impl; [exact Hlt | simpl; lia].
      - constructor; [lia | constructor]. }
    split; [|exact Hlt'].
    destruct (first_fit_place_cases k groups)
      as [[Hnone ->] | (pre & g & post & -> & Hg & ->)].
    + split; [|split].
      * apply Forall_app. split; [exact Hall|].
        constructor; [|constructor]. split; [discriminate|].
        repeat constructor.
      * rewrite map_app. apply StronglySorted_app. split; [|split].
        -- intros x1 x2 Hx1 Hx2. apply list_elem_of_singleton in Hx2 as ->.
           apply list_elem_of_fmap in Hx1 as (g & -> & Hgin).
           rewrite Forall_forall in Hall. destruct (Hall g Hgin) as [Hne _].
           destruct g as [|g0 g]; [contradiction|]. simpl.
           rewrite Forall_forall in Hlt. apply Hlt.
           apply elem_of_concat. exists (g0 :: g). split; [left | exact Hgin].
        -- exact Hheads.
        -- repeat constructor.
      * destruct groups; [discriminate Hzero | exact Hzero].
    + assert (Hgne : g <> []) by (intros ->; discriminate Hg).
      assert (Hhd : hd 0%nat (g ++ [k]) = hd 0%nat g)
        by (destruct g; [contradiction | reflexivity]).
      split; [|split].
      * apply Forall_app in Hall as [Hpre Hrest].
        inversion Hrest as [|? ? [_ Hsorted] Hpost]; subst.
        apply Forall_app. split; [exact Hpre|].
        constructor; [|exact Hpost]. split.
        -- now destruct g.
        -- apply StronglySorted_app. split; [|split].
           ++ intros x1 x2 Hx1 Hx2. apply list_elem_of_singleton in Hx2 as ->.
              rewrite Forall_forall in Hlt. apply Hlt.
              apply elem_of_concat. exists g. split; [exact Hx1|].
              apply elem_of_app. right. left.
           ++ exact Hsorted.
           ++ repeat constructor.
      * rewrite map_app in *. cbn [List.map] in *. now rewrite Hhd.
      * destruct pre; simpl in *; [now rewrite Hhd | exact Hzero].
Qed.

End Groups.

(** X9: with a tolerance that is zero or negative no two oscillators are
    grouped, not even oscillators with equal states (the test is strict):
    the allocator returns the groups [[0], [1], ..., [n-1]]. *)
Theorem allocate_nonpositive_tolerance (self : hysteresis_network)
    (tolerance : Q) :
  (0 < _num_osc self)%nat -> length (_states self) = _num_osc self ->
  tolerance <= 0 ->
  allocate_sync_ensembles self tolerance = inr (singletons (_num_osc self)).
Proof.
  intros Hn Hlen Htol.
  rewrite allocate_sync_ensembles_first_fit by exact Hlen.
  f_equal. now apply first_fit_nonpositive.
Qed.

(** X12: the groups come in a canonical order: no group is empty, the
    members of every group are in increasing order, the groups are in the
    increasing order of their first members, and the first group starts
    with oscillator 0. *)
Theorem allocate_ordered_groups (self : hysteresis_network) (tolerance : Q) :
  (0 < _num_osc self)%nat -> length (_states self) = _num_osc self ->
  exists clusters,
    allocate_sync_ensembles self tolerance = inr clusters /\
    Forall (fun g => g <> [] /\ StronglySorted lt g) clusters /\
    StronglySorted lt (map (hd 0%nat) clusters) /\
    hd 0%nat <$> head clusters = Some 0%nat.
Proof.
  intros Hn Hlen. eexists. split.
  - now apply allocate_sync_ensembles_first_fit.
  - now apply first_fit_order.
Qed.

Lemma allocate_fold_raised (states : list Q) (tolerance : Q) (e : exn) :
  forall indices : list nat,
    fold_left (allocate_step states tolerance) indices (inl e) = inl e.
Proof. induction indices as [|i indices IH]; [reflexivity | exact IH]. Qed.

Lemma allocate_step_out_of_range (states : list Q) (tolerance : Q) (i : nat)
    (m : nat) (g : list nat) (clusters : list (list nat)) :
  (length states <= i)%nat ->
  allocate_step states tolerance (inr ((m :: g) :: clusters)) i
  = inl IndexError.
Proof.
  intros Hi. unfold allocate_step. cbn [rbind scan_clusters scan_cluster].
  unfold in_tolerance, getitem.
  now rewrite (lookup_ge_None_2 states i Hi).
Qed.

(** X13: the allocator on a network with too few states.  With fewer
    states than oscillators, and at least two oscillators, it raises
    [IndexError]; with at most one oscillator it reads no state and
    returns the single group [0], even for a network of no oscillator. *)
Theorem allocate_short_states (self : hysteresis_network) (tolerance : Q) :
  ((_num_osc self <= 1)%nat ->
   allocate_sync_ensembles self tolerance = inr [[0%nat]]) /\
  ((2 <= _num_osc self)%nat ->
   (length (_states self) < _num_osc self)%nat ->
   allocate_sync_ensembles self tolerance = inl IndexError).
Proof.
  unfold allocate_sync_ensembles. split.
  - intros Hn. now replace (_num_osc self - 1)%nat with O by lia.
  - intros Hn Hlen.
    set (L := Nat.max 1 (length (_states self))).
    replace (_num_osc self - 1)%nat
      with ((L - 1) + S (_num_osc self - 1 - L))%nat by lia.
    rewrite seq_app, fold_left_app.
    replace (1 + (L - 1))%nat with L by lia. cbn [seq fold_left].
    assert (Hfirst :
      exists m g clusters,
        fold_left (allocate_step (_states self) tolerance) (seq 1 (L - 1))
                  (inr [[0%nat]])
        = inr ((m :: g) :: clusters)).
    { destruct (decide (length (_states self) <= 1)%nat) as [Hshort|Hlong].
      - replace (L - 1)%nat with O by lia. now exists 0%nat, [], [].
      - assert (HL : length (_states self) = L) by lia.
        destruct (allocate_fold (_states self) tolerance L HL (L - 1) 1
                    [[0%nat]] ltac:(lia) ltac:(reflexivity)) as [-> _].
        pose proof (first_fit_order (_states self) tolerance L ltac:(lia))
          as (Hall & _ & Hzero).
        unfold first_fit in Hall, Hzero.
        destruct (fold_left _ (seq 1 (L - 1)) [[0%nat]]) as [|g0 clusters];
          [discriminate Hzero|].
        inversion Hall as [|? ? [Hne _] _]; subst.
        destruct g0 as [|m g]; [contradiction|].
        now exists m, g, clusters. }
    destruct Hfirst as (m & g & clusters & ->).
    rewrite allocate_step_out_of_range by lia.
    apply allocate_fold_raised.
Qed.

(** ** Construction, assignment and simulation together *)

Section Composition.

Variable has_connection : nat -> nat -> bool.
Variable odeint : Q -> list Q -> integrator.

Lemma init_well_formed (n : nat) (own_weight neigh_weight : Q) :
  exists self,
    init n own_weight neigh_weight = inr self /\ well_formed self.
Proof.
  unfold init. rewrite init_weight_closed. simpl.
  eexists. split; [reflexivity|].
  unfold well_formed. simpl. rewrite !length_replicate.
  rewrite length_map, length_seq. repeat split.
  apply Forall_forall. intros row Hrow.
  apply list_elem_of_fmap in Hrow as (i & -> & _).
  unfold weight_row. now rewrite length_insert, length_replicate.
Qed.

(** X14: a constructed network has the shape the simulation keeps, its
    buffer equals its outputs, and its outputs and its buffer hold only -1,
    which puts them in the discrete set. *)
Theorem init_ready (n : nat) (own_weight neigh_weight : Q) :
  exists self,
    init n own_weight neigh_weight = inr self /\
    well_formed self /\ synced self /\
    (Forall (fun v => v = -1) (_outputs self) /\
     Forall (fun v => v = -1) (_outputs_buffer self)) /\
    bipolar_fields self.
Proof.
  unfold init. rewrite init_weight_closed. simpl.
  eexists. split; [reflexivity|]. split; [|split; [|split]].
  - unfold well_formed. simpl. rewrite !length_replicate.
    rewrite length_map, length_seq. repeat split.
    apply Forall_forall. intros row Hrow.
    apply list_elem_of_fmap in Hrow as (i & -> & _).
    unfold weight_row. now rewrite length_insert, length_replicate.
  - reflexivity.
  - split; simpl; now apply Forall_replicate.
  - split; simpl; apply Forall_replicate; now right.
Qed.

Lemma setters_keep_shape (initial_states initial_outputs : option (list Q))
    (self : hysteresis_network) :
  well_formed self ->
  (forall v, initial_states = Some v -> length v = _num_osc self) ->
  (forall v, initial_outputs = Some v -> length v = _num_osc self) ->
  exists self',
    (optional_setter states_setter initial_states ;;;
     optional_setter outputs_setter initial_outputs ;;; ret tt) self
    = (inr tt, self') /\
    well_formed self' /\
    _states self' = default (_states self) initial_states /\
    _num_osc self' = _num_osc self.
Proof.
  intros (Hs & Hb & Ho & Hw & Hrows) Hstates Houtputs.
  destruct initial_states as [vs|], initial_outputs as [vo|];
    eexists; (split; [reflexivity|]); unfold well_formed; simpl;
    rewrite ?(Hstates vs eq_refl), ?(Houtputs vo eq_refl);
    repeat split; assumption.
Qed.


(** X16: evaluating the derivative function again at the same state value
    changes nothing more: two evaluations in a row leave the fields, and
    return the value or raise the exception, of a single one. *)
Theorem neuron_states_idempotent (self : hysteresis_network) (xi t t' : Q)
    (index : nat) :
  (neuron_states has_connection xi t index ;;;
   neuron_states has_connection xi t' index) self
  = neuron_states has_connection xi t index self.
Proof.
  unfold bind at 1.
  destruct (neuron_states has_connection xi t index self) as [[e|x] s1] eqn:H1;
    [reflexivity|].
  revert H1. unfold neuron_states, bind, get, lift.
  destruct (impact_of has_connection self index) as [e|c] eqn:Hc;
    [discriminate|].
  unfold latch_if, bind, get, lift, put, ret, setitem.
  destruct (Qltb 1 xi) eqn:Hhi.
  - rewrite (thresholds_exclusive xi Hhi).
    destruct (decide (index < length (_outputs_buffer self))%nat) as [Hi|Hi];
      [|discriminate].
    simpl. intros [= <- <-].
    rewrite impact_of_buffer, Hc. simpl.
    rewrite decide_True by (now rewrite length_insert).
    simpl. now rewrite list_insert_insert_eq.
  - destruct (Qltb xi (-1)) eqn:Hlo; simpl.
    + destruct (decide (index < length (_outputs_buffer self))%nat) as [Hi|Hi];
        [|discriminate].
      simpl. intros [= <- <-].
      rewrite impact_of_buffer, Hc. simpl.
      rewrite decide_True by (now rewrite length_insert).
      simpl. now rewrite list_insert_insert_eq.
    + intros [= <- <-]. rewrite Hc. reflexivity.
Qed.

End Composition.

(** ** The shape of the recorded states *)

Section RecordedShape.

Variable has_connection : nat -> nat -> bool.
Variable odeint : Q -> list Q -> integrator.

Lemma simulate_loop_shapes (solution : solve_type) (step int_step : Q) :
  forall (ts tl : list Q) (sl : list (list Q)) (self self' : hysteresis_network)
         (d : dynamic),
    for_loop (simulate_step has_connection odeint solution true step int_step)
      ts (TimeList tl, StateList sl) self = (inr d, self') ->
    exists new,
      snd d = StateList (sl ++ new) /\
      length new = length ts /\
      Forall (fun v => length v = _num_osc self) new.
Proof.
  induction ts as [|t ts IH]; intros tl sl self self' d.
  - simpl. unfold ret. intros [= <- _]. exists []. simpl.
    now rewrite app_nil_r.
  - rewrite for_loop_cons, simulate_step_cases.
    pose proof (calculate_states_frame has_connection odeint solution t step
                  int_step self) as Hframe.
    cbv zeta in Hframe.
    destruct (_calculate_states has_connection odeint solution t step int_step
                self) as [[e|next_states] self1]; [discriminate|].
    simpl in Hframe. destruct Hframe as (_ & _ & Hn & _ & _ & Hnext).
    simpl. intros Hrest.
    destruct (IH _ _ _ _ _ Hrest) as (new & Hd & Hlen & Hall).
    exists (next_states :: new). split; [|split].
    + now rewrite Hd, <- app_assoc.
    + simpl. now rewrite Hlen.
    + constructor; [exact Hnext|].
      eapply Forall_impl; [exact Hall|]. simpl. intros v ->. exact Hn.
Qed.

(** X7: every state vector that [simulate_static] records after the
    initial one has [num_osc] entries, whatever the network, the
    integrator and the arguments. *)
Theorem recorded_states_shape (steps : Z) (time : Q) (solution : solve_type)
    (self self' : hysteresis_network) (times : dyn_time_value)
    (ss : list (list Q)) :
  simulate_static has_connection odeint steps time solution true self
  = (inr (times, StateList ss), self') ->
  exists recorded,
    ss = _states self :: recorded /\
    Forall (fun v => length v = _num_osc self) recorded.
Proof.
  unfold simulate_static.
  destruct (solve_type_eqb solution FAST); [discriminate|].
  destruct (solve_type_eqb solution RKF45); [discriminate|].
  unfold bind at 1. unfold get at 1. unfold bind at 1. unfold lift at 1.
  destruct (truediv time steps) as [e|step]; [discriminate|].
  unfold bind at 1. unfold lift at 1.
  destruct (arange step (time + step) step) as [e|ts]; [discriminate|].
  intros Hrun.
  destruct (simulate_loop_shapes _ _ _ _ _ _ _ _ _ Hrun)
    as (new & Hd & _ & Hall).
  simpl in Hd. injection Hd as ->. now exists new.
Qed.

End RecordedShape.

(** ** The further properties on the example networks *)

Lemma simulate_keeps_shape_witness :
  well_formed
    (snd (simulate_static all_to_all euler 2 1 RK4 true example_network)).
Proof.
  apply (proj2 (proj2 (simulate_keeps_shape all_to_all euler 2 1 RK4 true
                         example_network))).
  unfold well_formed. simpl. repeat split; repeat constructor.
Defined.

Lemma simulate_final_state_witness :
  synced (snd (simulate_static all_to_all euler 2 1 RK4 false example_network)).
Proof.
  assert (Hrun :
    simulate_static all_to_all euler 2 1 RK4 false example_network
    = (inr (returned_dynamic
              (simulate_static all_to_all euler 2 1 RK4 false
                 example_network)),
       snd (simulate_static all_to_all euler 2 1 RK4 false example_network)))
    by (vm_compute; reflexivity).
  assert (Hsteps : (0 < 2)%Z) by lia.
  assert (Htime : 0 < 1) by reflexivity.
  exact (proj1 (simulate_final_state all_to_all euler 2 1 false
                  example_network _ _ Hsteps Htime Hrun)).
Defined.


Lemma last_crossing_sets_output_witness :
  _outputs (snd (_calculate_states all_to_all euler RK4 (1 # 10) (1 # 10)
                   (1 # 100) excited_network)) !! 0%nat = Some 1.
Proof.
  assert (Hwf : well_formed excited_network).
  { unfold well_formed. simpl. repeat split; repeat constructor. }
  assert (Hi : (0 < _num_osc excited_network)%nat) by (simpl; lia).
  assert (Hrun :
    _calculate_states all_to_all euler RK4 (1 # 10) (1 # 10) (1 # 100)
      excited_network
    = (inr (returned_states
              (_calculate_states all_to_all euler RK4 (1 # 10) (1 # 10)
                 (1 # 100) excited_network)),
       snd (_calculate_states all_to_all euler RK4 (1 # 10) (1 # 10)
              (1 # 100) excited_network)))
    by (vm_compute; reflexivity).
  assert (Hstates :
    step_states all_to_all euler excited_network (1 # 10) (1 # 10) (1 # 100)
      0%nat
    = removelast
        (step_states all_to_all euler excited_network (1 # 10) (1 # 10)
           (1 # 100) 0%nat)
      ++ List.last
           (step_states all_to_all euler excited_network (1 # 10) (1 # 10)
              (1 # 100) 0%nat) 0 :: [])
    by (vm_compute; reflexivity).
  assert (Hpost : Forall (fun y : Q => ~ 1 < y /\ ~ y < -1) [])
    by constructor.
  assert (Hx : 1 < List.last
                     (step_states all_to_all euler excited_network (1 # 10)
                        (1 # 10) (1 # 100) 0%nat) 0)
    by (vm_compute; reflexivity).
  exact (proj1 (last_crossing_sets_output all_to_all euler excited_network _
                  RK4 (1 # 10) (1 # 10) (1 # 100) 0%nat _ _ _ _
                  Hwf Hi Hrun Hstates Hpost) Hx).
Defined.

Lemma allocate_nonpositive_tolerance_witness :
  allocate_sync_ensembles chained_network 0 = inr (singletons 5).
Proof.
  apply (allocate_nonpositive_tolerance chained_network 0).
  - simpl. lia.
  - reflexivity.
  - unfold Qle. simpl. lia.
Defined.

Lemma allocate_ordered_groups_witness :
  exists clusters,
    allocate_sync_ensembles chained_network (1 # 10) = inr clusters /\
    Forall (fun g => g <> [] /\ StronglySorted lt g) clusters /\
    StronglySorted lt (map (hd 0%nat) clusters) /\
    hd 0%nat <$> head clusters = Some 0%nat.
Proof.
  apply (allocate_ordered_groups chained_network (1 # 10)).
  - simpl. lia.
  - reflexivity.
Defined.

Lemma allocate_short_states_witness :
  allocate_sync_ensembles short_network (1 # 10) = inl IndexError.
Proof.
  apply (proj2 (allocate_short_states short_network (1 # 10))).
  - simpl. lia.
  - simpl. lia.
Defined.


Lemma recorded_states_shape_witness :
  exists recorded,
    recorded_state_list
      (returned_dynamic
         (simulate_static all_to_all euler 2 1 RK4 true example_network))
    = _states example_network :: recorded /\
    Forall (fun v => length v = _num_osc example_network) recorded.
Proof.
  assert (Hrun :
    simulate_static all_to_all euler 2 1 RK4 true example_network
    = (inr (fst (returned_dynamic
                   (simulate_static all_to_all euler 2 1 RK4 true
                      example_network)),
            StateList
              (recorded_state_list
                 (returned_dynamic
                    (simulate_static all_to_all euler 2 1 RK4 true
                       example_network)))),
       snd (simulate_static all_to_all euler 2 1 RK4 true example_network)))
    by (vm_compute; reflexivity).
  exact (recorded_states_shape all_to_all euler 2 1 RK4 example_network _ _ _
           Hrun).
Defined.

(** ** First fit for any test *)

Section FirstFitBy.

Variable near : nat -> nat -> bool.

Lemma first_fit_place_by_cases (i : nat) (groups : list (list nat)) :
  (existsb (existsb (near i)) groups = false /\
   first_fit_place_by near i groups = groups ++ [[i]]) \/
  (exists pre g post,
     groups = pre ++ g :: post /\
     existsb (near i) g = true /\
     first_fit_place_by near i groups = pre ++ (g ++ [i]) :: post).
Proof.
  induction groups as [|g groups IH]; cbn [first_fit_place_by existsb].
  - now left.
  - destruct (existsb (near i) g) eqn:Hg.
    + right. now exists [], g, groups.
    + destruct IH as [[Hnone ->] | (pre & g' & post & -> & Hg' & ->)].
      * left. now rewrite Hnone.
      * right. now exists (g :: pre), g', post.
Qed.

Lemma first_fit_place_by_members (i : nat) (groups : list (list nat)) :
  concat (first_fit_place_by near i groups) ≡ₚ concat groups ++ [i].
Proof.
  destruct (first_fit_place_by_cases i groups)
    as [[_ ->] | (pre & g & post & -> & _ & ->)].
  - rewrite concat_app. reflexivity.
  - rewrite !concat_app. simpl. rewrite <- !app_assoc.
    apply Permutation_app_head. apply Permutation_app_head.
    apply Permutation_app_comm.
Qed.

Lemma first_fit_by_fold_invariant (Inv : nat -> list (list nat) -> Prop)
    (n : nat) :
  (forall k groups, (1 <= k < n)%nat -> Inv k groups ->
     Inv (S k) (first_fit_place_by near k groups)) ->
  forall (m k : nat) (groups : list (list nat)),
    (1 <= k)%nat -> (k + m = n)%nat -> Inv k groups ->
    Inv n (fold_left (fun groups i => first_fit_place_by near i groups)
             (seq k m) groups).
Proof.
  intros Hstep. induction m as [|m IH]; intros k groups Hk Hn Hinv.
  - simpl. now replace n with k by lia.
  - cbn [seq fold_left]. apply IH; [lia | lia |].
    apply Hstep; [lia | exact Hinv].
Qed.

Lemma first_fit_by_invariant (Inv : nat -> list (list nat) -> Prop)
    (n : nat) :
  (0 < n)%nat ->
  Inv 1%nat [[0%nat]] ->
  (forall k groups, (1 <= k < n)%nat -> Inv k groups ->
     Inv (S k) (first_fit_place_by near k groups)) ->
  Inv n (first_fit_by near n).
Proof.
  intros Hn H0 Hstep. unfold first_fit_by.
  apply (first_fit_by_fold_invariant Inv n Hstep (n - 1) 1);
    [lia | lia | exact H0].
Qed.

Lemma first_fit_by_members (n : nat) :
  (0 < n)%nat -> concat (first_fit_by near n) ≡ₚ seq 0 n.
Proof.
  intros Hn.
  apply (first_fit_by_invariant
           (fun k groups => concat groups ≡ₚ seq 0 k) n Hn).
  - reflexivity.
  - intros k groups _ Hperm.
    rewrite first_fit_place_by_members, Hperm, seq_S. reflexivity.
Qed.

Lemma first_fit_by_all_pass (n : nat) :
  (0 < n)%nat ->
  (forall i, (0 < i < n)%nat -> near i 0 = true) ->
  first_fit_by near n = [seq 0 n].
Proof.
  intros Hn Hpass.
  apply (first_fit_by_invariant (fun k groups => groups = [seq 0 k]) n Hn).
  - reflexivity.
  - intros k groups Hk ->. cbn [first_fit_place_by].
    assert (Hex : existsb (near k) (seq 0 k) = true).
    { apply existsb_exists. exists 0%nat. split.
      - apply in_seq. lia.
      - apply Hpass. lia. }
    rewrite Hex. now rewrite seq_S.
Qed.

Lemma existsb_near_false (i m : nat) (groups : list (list nat)) :
  existsb (existsb (near i)) groups = false ->
  m ∈ concat groups -> near i m = false.
Proof.
  intros Hnone Hm. apply elem_of_concat in Hm as (g & Hmg & Hg).
  destruct (near i m) eqn:Hc; [|reflexivity].
  assert (Hex : existsb (existsb (near i)) groups = true).
  { apply existsb_exists. exists g. split; [now apply list_elem_of_In|].
    apply existsb_exists. exists m. split; [now apply list_elem_of_In|].
    exact Hc. }
  congruence.
Qed.

Lemma chained_by_snoc (g : list nat) (i : nat) :
  chained_by near g -> existsb (near i) g = true ->
  chained_by near (g ++ [i]).
Proof.
  intros Hg Hex j x Hj Hx.
  destruct (decide (j < length g)%nat) as [Hlt|Hge].
  - rewrite lookup_app_l in Hx by exact Hlt.
    destruct (Hg j x Hj Hx) as (j' & m & Hj' & Hm & Hc).
    exists j', m. split; [exact Hj'|]. split; [|exact Hc].
    rewrite lookup_app_l by lia. exact Hm.
  - rewrite lookup_app_r in Hx by lia.
    destruct (j - length g)%nat as [|d] eqn:Hd; [|now destruct d].
    simpl in Hx. injection Hx as <-.
    apply existsb_exists in Hex as (m & Hm & Hc).
    apply list_elem_of_In, list_elem_of_lookup_1 in Hm as [j' Hj'].
    exists j', m. split.
    + apply lookup_lt_Some in Hj'. lia.
    + split; [|exact Hc]. rewrite lookup_app_l; [exact Hj'|].
      now apply lookup_lt_Some in Hj'.
Qed.

Lemma first_fit_by_chains (n : nat) :
  (0 < n)%nat ->
  Forall (fun g => chained_by near g /\ fresh_head_by near g)
         (first_fit_by near n).
Proof.
  intros Hn.
  apply (first_fit_by_invariant
           (fun k groups =>
              concat groups ≡ₚ seq 0 k /\
              Forall (fun g => chained_by near g /\ fresh_head_by near g)
                     groups) n Hn).
  - split; [reflexivity|]. constructor; [|constructor]. split.
    + intros j i Hj Hx. destruct j; [lia | discriminate].
    + intros h [= <-]. now left.
  - intros k groups Hk [Hperm Hall]. split.
    { rewrite first_fit_place_by_members, Hperm, seq_S. reflexivity. }
    destruct (first_fit_place_by_cases k groups)
      as [[Hnone ->] | (pre & g & post & -> & Hg & ->)].
    + apply Forall_app. split; [exact Hall|].
      constructor; [|constructor]. split.
      * intros j i Hj Hx. destruct j; [lia | discriminate].
      * intros h [= <-]. right. intros m Hm.
        apply (existsb_near_false k m groups Hnone).
        rewrite Hperm. apply elem_of_seq. lia.
    + apply Forall_app in Hall as [Hpre Hrest].
      inversion Hrest as [|? ? [Hchain Hhead] Hpost]; subst.
      apply Forall_app. split; [exact Hpre|].
      constructor; [|exact Hpost]. split.
      * now apply chained_by_snoc.
      * intros h Hh. apply Hhead.
        destruct g as [|g0 g]; [discriminate Hg | exact Hh].
Qed.

End FirstFitBy.

(** ** The loops of the allocator are first fit with the test of the code *)

Section AllocatorBy.

Variable num : Type.
Variable less : num -> num -> bool.
Variable plus : num -> num -> num.
Variable minus : num -> num -> num.
Variable states : list num.
Variable tolerance : num.

Lemma in_tolerance_by_passes (i m : nat) :
  (i < length states)%nat -> (m < length states)%nat ->
  in_tolerance_by num less plus minus states tolerance i m
  = inr (passes_test num less plus minus states tolerance i m).
Proof.
  intros Hi Hm. unfold in_tolerance_by, passes_test.
  destruct (getitem_lt states i Hi) as (si & Hsi & ->).
  destruct (getitem_lt states m Hm) as (sm & Hsm & ->).
  now rewrite Hsi, Hsm.
Qed.

Lemma scan_cluster_by_exists (i : nat) (cluster : list nat) :
  (i < length states)%nat ->
  Forall (fun m => (m < length states)%nat) cluster ->
  scan_cluster_by num less plus minus states tolerance i cluster
  = inr (existsb (passes_test num less plus minus states tolerance i)
                 cluster).
Proof.
  intros Hi. induction cluster as [|m cluster IH]; intros Hc.
  - reflexivity.
  - inversion Hc as [|? ? Hm Hc']; subst. cbn [scan_cluster_by existsb].
    rewrite in_tolerance_by_passes by assumption. cbn [rbind].
    destruct (passes_test num less plus minus states tolerance i m);
      [reflexivity | now apply IH].
Qed.

Lemma scan_clusters_by_first_fit (i : nat) (clusters : list (list nat)) :
  (i < length states)%nat ->
  Forall (fun m => (m < length states)%nat) (concat clusters) ->
  scan_clusters_by num less plus minus states tolerance i clusters
  = inr (existsb
           (existsb (passes_test num less plus minus states tolerance i))
           clusters,
         if existsb
              (existsb (passes_test num less plus minus states tolerance i))
              clusters
         then first_fit_place_by
                (passes_test num less plus minus states tolerance) i clusters
         else clusters).
Proof.
  intros Hi. induction clusters as [|g clusters IH]; intros Hc.
  - reflexivity.
  - simpl in Hc. apply Forall_app in Hc as [Hg Hc].
    cbn [scan_clusters_by existsb first_fit_place_by].
    rewrite scan_cluster_by_exists by assumption. cbn [rbind].
    destruct (existsb (passes_test num less plus minus states tolerance i) g);
      [reflexivity|].
    rewrite IH by exact Hc. cbn [rbind fst snd orb].
    now destruct (existsb
                    (existsb
                       (passes_test num less plus minus states tolerance i))
                    clusters).
Qed.

Lemma allocate_step_by_first_fit (i : nat) (clusters : list (list nat)) :
  (i < length states)%nat ->
  Forall (fun m => (m < length states)%nat) (concat clusters) ->
  allocate_step_by num less plus minus states tolerance (inr clusters) i
  = inr (first_fit_place_by
           (passes_test num less plus minus states tolerance) i clusters).
Proof.
  intros Hi Hc. unfold allocate_step_by. cbn [rbind].
  rewrite scan_clusters_by_first_fit by assumption. cbn [rbind fst snd].
  destruct (first_fit_place_by_cases
              (passes_test num less plus minus states tolerance) i clusters)
    as [[Hnone Hplace] | (pre & g & post & -> & Hg & _)].
  - now rewrite Hnone, Hplace.
  - assert (Hex : existsb
                    (existsb
                       (passes_test num less plus minus states tolerance i))
                    (pre ++ g :: post) = true).
    { apply existsb_exists. exists g. split; [|exact Hg].
      apply in_or_app. right. now left. }
    now rewrite Hex.
Qed.

Lemma allocate_by_fold (n : nat) :
  length states = n ->
  forall (m k : nat) (clusters : list (list nat)),
    (k + m = n)%nat ->
    concat clusters ≡ₚ seq 0 k ->
    fold_left (allocate_step_by num less plus minus states tolerance)
              (seq k m) (inr clusters)
    = inr (fold_left
             (fun groups i =>
                first_fit_place_by
                  (passes_test num less plus minus states tolerance) i groups)
             (seq k m) clusters).
Proof.
  intros Hn. induction m as [|m IH]; intros k clusters Hk Hperm.
  - reflexivity.
  - cbn [seq fold_left].
    rewrite allocate_step_by_first_fit.
    + apply IH; [lia|].
      rewrite first_fit_place_by_members, Hperm, seq_S. reflexivity.
    + lia.
    + rewrite Hperm. apply Forall_forall. intros x Hx.
      apply elem_of_seq in Hx. lia.
Qed.

(** In every arithmetic, the loops of the allocator are the first-fit rule
    for the test the code computes. *)
Lemma allocate_by_first_fit (n : nat) :
  length states = n ->
  allocate_sync_ensembles_by num less plus minus n states tolerance
  = inr (first_fit_by (passes_test num less plus minus states tolerance) n).
Proof.
  intros Hlen. unfold allocate_sync_ensembles_by, first_fit_by.
  destruct n as [|n]; [reflexivity|].
  apply (allocate_by_fold (S n) Hlen); [lia | reflexivity].
Qed.

(** X10: in whatever way the arithmetic rounds, when every other
    oscillator passes the test of the code against oscillator 0, the
    allocator returns the single group [0, ..., n-1]. *)
Theorem allocate_single_ensemble (n : nat) :
  (0 < n)%nat -> length states = n ->
  (forall i, (0 < i < n)%nat ->
     passes_test num less plus minus states tolerance i 0 = true) ->
  allocate_sync_ensembles_by num less plus minus n states tolerance
  = inr [seq 0 n].
Proof.
  intros Hn Hlen Hpass. rewrite allocate_by_first_fit by exact Hlen.
  f_equal. now apply first_fit_by_all_pass.
Qed.

(** X11: in whatever way the arithmetic rounds, the groups are chains for
    the test of the code, and no more: every member of a group after its
    first passes the test against some member before it in the same
    group, and the first member of every group is oscillator 0 or fails
    the test against every oscillator of smaller index. *)
Theorem allocate_chained_groups (n : nat) :
  (0 < n)%nat -> length states = n ->
  exists clusters,
    allocate_sync_ensembles_by num less plus minus n states tolerance
    = inr clusters /\
    Forall (fun g =>
              chained_by (passes_test num less plus minus states tolerance) g
              /\ fresh_head_by
                   (passes_test num less plus minus states tolerance) g)
           clusters.
Proof.
  intros Hn Hlen. eexists. split.
  - now apply allocate_by_first_fit.
  - now apply first_fit_by_chains.
Qed.

End AllocatorBy.

(** ** The allocator and the time points in binary64 *)

(** C4 (amended): on float states [allocate_sync_ensembles] is the
    first-fit rule for the test the code computes,
    [s_i < s_m + tolerance and s_i > s_m - tolerance] with the sum and the
    difference rounded: oscillator 0 starts the first group and every
    later index joins the first group holding a member it passes the test
    against, or else starts a new group.  On the two documented state
    vectors it returns the documented groups. *)
Theorem allocate_first_fit_binary64 :
  (forall (n : nat) (states : list PrimFloat.float)
          (tolerance : PrimFloat.float),
     length states = n ->
     allocate_sync_ensembles_binary64 n states tolerance
     = inr (first_fit_by (code_test_binary64 states tolerance) n)) /\
  allocate_sync_ensembles_binary64 5 spread_states (decimal 1 10)
  = inr [[0]; [1]; [2]; [3]; [4]]%nat /\
  allocate_sync_ensembles_binary64 5 chained_states (decimal 1 10)
  = inr [[0; 1; 2]; [3; 4]]%nat.
Proof.
  split.
  - intros n states tolerance Hlen.
    now apply allocate_by_first_fit.
  - split; vm_compute; reflexivity.
Qed.

(** C4 (as stated, refuted): for the states 5.0 and 4.9 and the tolerance
    0.1 the two oscillators differ by less than the tolerance, so the rule
    with [|s_i - s_m| < tolerance] makes one group of them; the code makes
    two, because [5.0 - 0.1] rounds to the float 4.9 and 4.9 is not above
    it. *)
Lemma allocate_not_absolute_rule :
  absolute_test_binary64 tenth_apart_states (decimal 1 10) 1 0 = true /\
  first_fit_by (absolute_test_binary64 tenth_apart_states (decimal 1 10)) 2
  = [[0; 1]]%nat /\
  allocate_sync_ensembles_binary64 2 tenth_apart_states (decimal 1 10)
  = inr [[0]; [1]]%nat /\
  allocate_sync_ensembles_binary64 2 tenth_apart_states (decimal 1 10)
  <> inr (first_fit_by
            (absolute_test_binary64 tenth_apart_states (decimal 1 10)) 2).
Proof.
  repeat split; try (vm_compute; reflexivity).
  vm_compute. discriminate.
Qed.

(** C6 (as the code behaves): for 49 steps over the time 1 the array the
    loop of [simulate_static] runs over has 50 elements, not 49, because
    [(time + step - step) / step] is a little above 49 in floats; its last
    element, the time of the last macro step, is above 1. *)
Theorem one_macro_step_too_many :
  exists times final,
    macro_step_times 49 (of_int 1) = inr times /\
    length times = 50%nat /\
    last times = Some final /\
    PrimFloat.ltb (of_int 1) final = true.
Proof.
  eexists. eexists. split; [vm_compute; reflexivity|].
  repeat split.
Qed.

Lemma allocate_first_fit_binary64_witness :
  allocate_sync_ensembles_binary64 2 tenth_apart_states (decimal 1 10)
  = inr (first_fit_by
           (code_test_binary64 tenth_apart_states (decimal 1 10)) 2).
Proof.
  apply (proj1 allocate_first_fit_binary64 2%nat tenth_apart_states
           (decimal 1 10)).
  reflexivity.
Defined.

Lemma allocate_single_ensemble_witness :
  allocate_sync_ensembles_binary64 3
    [of_int 1; decimal 105 100; decimal 102 100] (decimal 1 10)
  = inr [seq 0 3].
Proof.
  apply (allocate_single_ensemble PrimFloat.float PrimFloat.ltb PrimFloat.add
           PrimFloat.sub [of_int 1; decimal 105 100; decimal 102 100]
           (decimal 1 10) 3).
  - lia.
  - reflexivity.
  - intros i Hi. destruct i as [|[|[|i]]]; [lia | | | lia];
      vm_compute; reflexivity.
Defined.

Lemma allocate_chained_groups_witness :
  exists clusters,
    allocate_sync_ensembles_binary64 5 chained_states (decimal 1 10)
    = inr clusters /\
    Forall (fun g =>
              chained_by (code_test_binary64 chained_states (decimal 1 10)) g
              /\ fresh_head_by
                   (code_test_binary64 chained_states (decimal 1 10)) g)
           clusters.
Proof.
  apply (allocate_chained_groups PrimFloat.float PrimFloat.ltb PrimFloat.add
           PrimFloat.sub chained_states (decimal 1 10) 5).
  - lia.
  - reflexivity.
Defined.
